(** * video_editor.py: timeline model, project store and export pipeline

    A shallow embedding of the data model of [video_editor.py] ([MediaItem],
    [Clip], [Project]), of the duration probe [get_media_duration], of the two
    timeline gestures that touch the model ([dropEvent], [mouseReleaseEvent])
    and of the export code ([export_project], [_export_with_ffmpeg]).

    Conventions.
    - Seconds, pixels and the other Python floats are exact rationals ([Q]),
      so sums, differences and products carry no rounding; in particular
      [start * 1000] is exact here, where Python rounds it to a double before
      [int] truncates it.  Where a value is built by arithmetic the
      statements use [==] (equality of rationals).
    - Python objects that are mutated through several references ([Clip]
      instances are shared by the track lists and by the timeline's
      [graphics_to_clip] map) live in a heap and are named by references.
    - [dict] is an association list in insertion order, as CPython iterates it.
    - Exceptions are values of [exn]; a call that can raise returns [Exc A].
      Only the exceptions the source itself handles or triggers are modelled
      (a missing key, a failed [subprocess.run(check=True)], a failed parse,
      an [ffprobe] that is not found or cannot be started);
      operating-system failures of [os.makedirs] and [open] are not.
    - [ffmpeg] and [ffprobe] are collaborators: each command line is a
      constructor carrying the arguments the source computes, the fixed flags
      are recalled in comments. *)

From Stdlib Require Import QArith Qminmax ZArith String Ascii List Bool Lia.
From Stdlib Require Import Permutation Sorted DecimalString.
From Stdlib Require DecimalFacts DecimalNat.
Import ListNotations.

Local Open Scope string_scope.
Local Open Scope list_scope.

(** ** Exceptions *)

Inductive exn : Type :=
| KeyError (key : string)
| TypeError (what : string)
| AttributeError (what : string)
| ValueError (what : string)
| FileNotFoundError (what : string)
| PermissionError (what : string)
| CalledProcessError (argv0 : string).

Definition Exc (A : Type) : Type := (exn + A)%type.

Definition exc_bind {A B : Type} (m : Exc A) (k : A -> Exc B) : Exc B :=
  match m with
  | inl e => inl e
  | inr a => k a
  end.

Declare Scope exc_scope.
Delimit Scope exc_scope with exc.
Notation "x <- m ;; k" := (exc_bind m (fun x => k))
  (at level 61, m at next level, right associativity) : exc_scope.

(** ** Numbers

    [x < y] on floats and [int(x)] (truncation towards zero). *)

Definition Qltb (x y : Q) : bool := negb (Qle_bool y x).

Definition py_int (x : Q) : Z := Z.quot (Qnum x) (Zpos (Qden x)).

(** [max(a, b)]: the first argument unless the second is strictly larger. *)
Definition py_max (a b : Q) : Q := if Qltb a b then b else a.

(** ** dict, in insertion order *)

Module Dict.
Section WithValue.
Context {V : Type}.

Definition t : Type := list (string * V).

Definition empty : t := [].

Fixpoint get (d : t) (k : string) : option V :=
  match d with
  | [] => None
  | (k', v) :: d' => if String.eqb k' k then Some v else get d' k
  end.

(** [k in d] *)
Definition mem (d : t) (k : string) : bool :=
  match get d k with Some _ => true | None => false end.

(** [d[k]], raising [KeyError] *)
Definition item (d : t) (k : string) : Exc V :=
  match get d k with Some v => inr v | None => inl (KeyError k) end.

(** [d[k] = v]: an existing key keeps its place, a new one goes last. *)
Fixpoint set (d : t) (k : string) (v : V) : t :=
  match d with
  | [] => [(k, v)]
  | (k', v') :: d' =>
      if String.eqb k' k then (k', v) :: d' else (k', v') :: set d' k v
  end.

(** [del d[k]], for a key that is there *)
Fixpoint del (d : t) (k : string) : t :=
  match d with
  | [] => []
  | (k', v') :: d' => if String.eqb k' k then d' else (k', v') :: del d' k
  end.

Definition keys (d : t) : list string := map fst d.
Definition values (d : t) : list V := map snd d.
End WithValue.
Arguments t : clear implicits.
End Dict.

(** ** JSON documents, as [json.dump] writes and [json.load] reads them *)

#[local] Set Warnings "-register-all".

Inductive json : Type :=
| JNull
| JNum (x : Q)
| JStr (s : string)
| JArr (items : list json)
| JObj (fields : Dict.t json).

(** [d[k]] on a decoded document *)
Definition json_item (d : json) (k : string) : Exc json :=
  match d with
  | JObj fields => Dict.item fields k
  | _ => inl (TypeError "subscript")
  end.

(** [d.get(k, default)], for the three shapes the loader asks for *)
Definition json_get (d : json) (k : string) : Exc (option json) :=
  match d with
  | JObj fields => inr (Dict.get fields k)
  | _ => inl (AttributeError "get")
  end.

(** Fields are typed in the model; a document with a value of another shape in
    a field is reported here, where Python would store it unchecked. *)
Definition as_str (j : json) : Exc string :=
  match j with JStr s => inr s | _ => inl (TypeError "str") end.

Definition as_num (j : json) : Exc Q :=
  match j with JNum x => inr x | _ => inl (TypeError "float") end.

Definition as_arr (j : json) : Exc (list json) :=
  match j with JArr l => inr l | _ => inl (TypeError "list") end.

(** ** MediaItem *)

Module MediaItem.
Record t : Type := mk {
  path : string;
  media_type : string;
  thumbnail : string;
  id : string
}.

Definition to_dict (self : t) : json :=
  JObj [ ("id", JStr (id self));
         ("path", JStr (path self));
         ("media_type", JStr (media_type self));
         ("thumbnail", JStr (thumbnail self)) ].

Definition from_dict (d : json) : Exc t :=
  (p <- exc_bind (json_item d "path") as_str ;;
   m <- exc_bind (json_item d "media_type") as_str ;;
   th <- exc_bind (json_item d "thumbnail") as_str ;;
   i <- exc_bind (json_item d "id") as_str ;;
   inr (mk p m th i))%exc.
End MediaItem.

(** ** Clip *)

Module Clip.
Record t : Type := mk {
  media_id : string;
  in_point : Q;
  out_point : Q;
  start_time : Q
}.

Definition to_dict (self : t) : json :=
  JObj [ ("media_id", JStr (media_id self));
         ("in", JNum (in_point self));
         ("out", JNum (out_point self));
         ("start", JNum (start_time self)) ].

Definition from_dict (d : json) : Exc t :=
  (m <- exc_bind (json_item d "media_id") as_str ;;
   i <- exc_bind (json_item d "in") as_num ;;
   o <- exc_bind (json_item d "out") as_num ;;
   s <- exc_bind (json_item d "start") as_num ;;
   inr (mk m i o s))%exc.

(** [clip.start_time = s] *)
Definition set_start_time (self : t) (s : Q) : t :=
  mk (media_id self) (in_point self) (out_point self) s.

(** [clip.out_point - clip.in_point] *)
Definition duration (self : t) : Q := out_point self - in_point self.
End Clip.

(** ** The heap of Clip objects *)

Definition ref : Type := nat.

Definition Heap : Type := list Clip.t.

(** Constructing a [Clip] allocates a new object. *)
Definition alloc (h : Heap) (c : Clip.t) : Heap * ref := (h ++ [c], length h).

(** Contents of a live object.  References kept by a project are allocated;
    the value for a reference that is not is never looked at. *)
Definition deref (h : Heap) (r : ref) : Clip.t :=
  nth r h (Clip.mk "" 0 0 0).

Fixpoint update {A : Type} (l : list A) (i : nat) (f : A -> A) : list A :=
  match l, i with
  | [], _ => []
  | x :: l', O => f x :: l'
  | x :: l', S i' => x :: update l' i' f
  end.

Definition clips_of (h : Heap) (track : list ref) : list Clip.t :=
  map (deref h) track.

(** ** list.sort(key=...)

    CPython's sort is stable and ascending; insertion of each element before
    the first one with a strictly larger key computes the same list. *)

Section Sort.
Context {A : Type} (key : A -> Q).

Fixpoint insert_sorted (x : A) (l : list A) : list A :=
  match l with
  | [] => [x]
  | y :: l' =>
      if Qle_bool (key x) (key y) then x :: y :: l' else y :: insert_sorted x l'
  end.

Fixpoint sort_by_key (l : list A) : list A :=
  match l with
  | [] => []
  | x :: l' => insert_sorted x (sort_by_key l')
  end.

(** The elements whose key equals [k]: a sort is stable when, for every [k],
    they come out in the order they went in. *)
Definition same_key (k : Q) (x : A) : bool := Qeq_bool (key x) k.
End Sort.

(** ** Project *)

Module Project.
Record t : Type := mk {
  media : Dict.t MediaItem.t;
  video_clips : list ref;
  audio_clips : list ref;
  workspace_dir : string;
  export_dir : string
}.

(** [Project()]: the two defaults are [os.path.expanduser] of
    [~/video_editor_workspace] and [~/Videos], given by the environment.
    The two [os.makedirs(..., exist_ok=True)] calls create the directories on
    disk and leave the object as it is. *)
Definition init (default_workspace default_export : string) : t :=
  mk Dict.empty [] [] default_workspace default_export.

Definition add_media (self : t) (item : MediaItem.t) : t :=
  mk (Dict.set (media self) (MediaItem.id item) item)
     (video_clips self) (audio_clips self)
     (workspace_dir self) (export_dir self).

(** The sort key [lambda c: c.start_time] reads the clip object. *)
Definition start_key (h : Heap) (r : ref) : Q := Clip.start_time (deref h r).

Definition add_clip (h : Heap) (self : t) (clip : ref) (track : string) : t :=
  if String.eqb track "video" then
    mk (media self)
       (sort_by_key (start_key h) (video_clips self ++ [clip]))
       (audio_clips self)
       (workspace_dir self) (export_dir self)
  else
    mk (media self)
       (video_clips self)
       (sort_by_key (start_key h) (audio_clips self ++ [clip]))
       (workspace_dir self) (export_dir self).

Definition to_dict (h : Heap) (self : t) : json :=
  JObj [ ("media", JArr (map MediaItem.to_dict (Dict.values (media self))));
         ("video_clips", JArr (map Clip.to_dict (clips_of h (video_clips self))));
         ("audio_clips", JArr (map Clip.to_dict (clips_of h (audio_clips self))));
         ("workspace_dir", JStr (workspace_dir self));
         ("export_dir", JStr (export_dir self)) ].

(** [for m in data.get("media", []): item = MediaItem.from_dict(m);
    proj.media[item.id] = item] *)
Fixpoint load_media (ms : list json) (acc : Dict.t MediaItem.t)
  : Exc (Dict.t MediaItem.t) :=
  match ms with
  | [] => inr acc
  | m :: ms' =>
      (item <- MediaItem.from_dict m ;;
       load_media ms' (Dict.set acc (MediaItem.id item) item))%exc
  end.

(** [for c in data.get(..., []): clip = Clip.from_dict(c);
    proj.<track>.append(clip)]: every record becomes a new object. *)
Fixpoint load_clips (cs : list json) (h : Heap) (acc : list ref)
  : Exc (Heap * list ref) :=
  match cs with
  | [] => inr (h, acc)
  | c :: cs' =>
      (clip <- Clip.from_dict c ;;
       let '(h', r) := alloc h clip in
       load_clips cs' h' (acc ++ [r]))%exc
  end.

Definition get_str (data : json) (k : string) (default : string) : Exc string :=
  (v <- json_get data k ;;
   match v with
   | Some j => as_str j
   | None => inr default
   end)%exc.

Definition get_arr (data : json) (k : string) : Exc (list json) :=
  (v <- json_get data k ;;
   match v with
   | Some j => as_arr j
   | None => inr []
   end)%exc.

(** [from_dict]; the directories it creates on disk are not part of the
    project it returns. *)
Definition from_dict (default_workspace default_export : string)
    (h : Heap) (data : json) : Exc (Heap * t) :=
  (let proj := init default_workspace default_export in
   ws <- get_str data "workspace_dir" (workspace_dir proj) ;;
   ex <- get_str data "export_dir" (export_dir proj) ;;
   ms <- get_arr data "media" ;;
   media' <- load_media ms (media proj) ;;
   vs <- get_arr data "video_clips" ;;
   hv <- load_clips vs h (video_clips proj) ;;
   as' <- get_arr data "audio_clips" ;;
   ha <- load_clips as' (fst hv) (audio_clips proj) ;;
   inr (fst ha, mk media' (snd hv) (snd ha) ws ex))%exc.

(** What [==] on the fields compares: the catalogue, the clips of both
    tracks in order, and the two directories. *)
Record view : Type := mk_view {
  v_media : Dict.t MediaItem.t;
  v_video : list Clip.t;
  v_audio : list Clip.t;
  v_workspace_dir : string;
  v_export_dir : string
}.

Definition view_of (h : Heap) (self : t) : view :=
  mk_view (media self) (clips_of h (video_clips self))
          (clips_of h (audio_clips self))
          (workspace_dir self) (export_dir self).
End Project.

(** ** Calls to the collaborators *)

(** One part of the [-filter_complex] graph of the final command. *)
Inductive FilterPart : Type :=
| Adelay (input : nat) (delays : list Z) (label : nat)
    (** ["[{input}:a]adelay={d}|{d}[a{label}];"], one delay per channel *)
| AmixLongest (labels : list nat) (inputs : nat).
    (** ["[a0][a1]...amix=inputs={inputs}:duration=longest[aout]"] *)

Inductive Cmd : Type :=
| TrimVideo (ss : Q) (i : string) (to_ : Q) (out : string)
    (** [ffmpeg -y -ss ss -i i -to to_ -c copy out] *)
| TrimAudio (ss : Q) (i : string) (to_ : Q) (out : string)
    (** [ffmpeg -y -ss ss -i i -to to_ -q:a 0 out] *)
| Concat (list_path : string) (out : string)
    (** [ffmpeg -y -f concat -safe 0 -i list_path -c copy out] *)
| Encode (i : string) (out : string)
    (** [ffmpeg -y -i i -c:v libx264 -c:a aac -preset fast out] *)
| MixMux (i : string) (audio : list string) (filter_complex : list FilterPart)
         (out : string).
    (** [ffmpeg -y -i i (-i a)* -filter_complex g -map 0:v -map [aout]
         -c:v libx264 -c:a aac -preset fast out] *)

(** The file a command is asked to produce: its last argument. *)
Definition cmd_out (c : Cmd) : string :=
  match c with
  | TrimVideo _ _ _ out | TrimAudio _ _ _ out | Concat _ out
  | Encode _ out | MixMux _ _ _ out => out
  end.

Inductive Event : Type :=
| FfprobeVersion
    (** [subprocess.run(["ffprobe", "-version"])] *)
| FfprobeDuration (path : string)
    (** [ffprobe -v error -select_streams v:0 -show_entries format=duration ...] *)
| Ffmpeg (c : Cmd) (ok : bool)
    (** an ffmpeg run and whether it exited with status 0 *)
| WriteLines (path : string) (lines : list string).
    (** a text file written by the program itself *)

(** A request to the media engine: a trim, a concatenation, a mix or a mux. *)
Definition is_engine_request (e : Event) : bool :=
  match e with Ffmpeg _ _ => true | _ => false end.

Definition is_duration_probe (e : Event) : bool :=
  match e with FfprobeDuration _ => true | _ => false end.

(** ** get_media_duration *)

Record ProbeEnv : Type := {
  (** what [subprocess.run(["ffprobe", "-version"], ...)] does: it returns
      (its result is not looked at), or it raises, [FileNotFoundError] when
      there is no such program and another error when the program cannot be
      started *)
  ffprobe_version : Exc unit;
  (** what [subprocess.run] of the duration query returns on stdout, or the
      exception it raises *)
  ffprobe_stdout : string -> Exc string;
  (** [float(text.strip())] *)
  py_float : string -> Exc Q
}.

(** [ffprobe_installed]: only [FileNotFoundError] is caught. *)
Definition ffprobe_installed (env : ProbeEnv) : Exc bool * list Event :=
  (match ffprobe_version env with
   | inr _ => inr true
   | inl (FileNotFoundError _) => inr false
   | inl e => inl e
   end,
   [FfprobeVersion]).

(** The body of the [try] block. *)
Definition probe_duration (env : ProbeEnv) (path : string) : Exc Q :=
  (out <- ffprobe_stdout env path ;; py_float env out)%exc.

(** [get_media_duration(path)] with the function attribute [_cache] passed
    in and out; the first component is the number returned or the exception
    that leaves the function, the third lists the programs that were run.
    The call of [ffprobe_installed] stands before the [try]: what it raises
    is not caught here. *)
Definition get_media_duration (env : ProbeEnv) (cache : Dict.t Q) (path : string)
  : Exc Q * Dict.t Q * list Event :=
  let '(installed, ev) := ffprobe_installed env in
  match installed with
  | inl e => (inl e, cache, ev)
  | inr installed =>
      if negb installed then (inr 10, cache, ev)
      else
        match Dict.get cache path with
        | Some d => (inr d, cache, ev)
        | None =>
            let duration :=
              match probe_duration env path with
              | inr d => d
              | inl _ => 10
              end in
            (inr duration, Dict.set cache path duration,
             ev ++ [FfprobeDuration path])
        end
  end.

(** ** TimelineWidget *)

Record Rect : Type := { rect_x : Q; rect_y : Q; rect_width : Q; rect_height : Q }.

Definition pixels_per_second : Q := 100.
Definition video_y : Q := 0.
Definition audio_y : Q := 60.
Definition track_height : Q := 40.

(** The state the gestures read and write: the heap of clips, the project,
    the widget's [graphics_to_clip] (each item with the rectangle the view
    reports for it) and the probe cache. *)
Record App : Type := {
  heap : Heap;
  project : Project.t;
  graphics_to_clip : list (Rect * ref);
  duration_cache : Dict.t Q
}.

(** [_draw_clip]: nothing is drawn for a clip whose media is gone. *)
Definition _draw_clip (h : Heap) (p : Project.t) (items : list (Rect * ref))
    (clip : ref) (track : string) : list (Rect * ref) :=
  let c := deref h clip in
  match Dict.get (Project.media p) (Clip.media_id c) with
  | None => items
  | Some _ =>
      let duration := Clip.out_point c - Clip.in_point c in
      let width := duration * pixels_per_second in
      let y := if String.eqb track "video" then video_y else audio_y in
      items ++ [({| rect_x := Clip.start_time c * pixels_per_second;
                    rect_y := y; rect_width := width;
                    rect_height := track_height |}, clip)]
  end.

(** [dropEvent]: [data] is the dragged media id (empty when the drag carries
    none), [(x, y)] the drop position in scene coordinates. The first
    component is the state the handler leaves, or the exception that leaves
    it: [get_media_duration] is called outside any [try], before the clip is
    made. *)
Definition dropEvent (env : ProbeEnv) (app : App) (data : string) (x y : Q)
  : Exc App * list Event :=
  if String.eqb data "" then (inr app, [])
  else
    match Dict.get (Project.media (project app)) data with
    | None => (inr app, [])
    | Some media =>
        let track := if Qltb y audio_y then "video" else "audio" in
        let start_time := py_max 0 (x / pixels_per_second) in
        let '(duration, cache', ev) :=
          get_media_duration env (duration_cache app) (MediaItem.path media) in
        match duration with
        | inl e => (inl e, ev)
        | inr duration =>
            let '(h', clip) :=
              alloc (heap app) (Clip.mk data 0 duration start_time) in
            let p' := Project.add_clip h' (project app) clip track in
            (inr {| heap := h'; project := p';
                    graphics_to_clip :=
                      _draw_clip h' p' (graphics_to_clip app) clip track;
                    duration_cache := cache' |}, ev)
        end
    end.

(** The state after a drop that returns. *)
Definition dropped (env : ProbeEnv) (app : App) (data : string) (x y : Q) : App :=
  match fst (dropEvent env app data x y) with
  | inr app' => app'
  | inl _ => app
  end.

(** The body of the loop of [mouseReleaseEvent] for one item. *)
Definition release_item (h : Heap) (item : Rect * ref) : Heap * (Rect * ref) :=
  let '(rect, clip) := item in
  let new_start := rect_x rect / pixels_per_second in
  if Qltb new_start 0 then
    (update h clip (fun c => Clip.set_start_time c 0),
     ({| rect_x := 0; rect_y := rect_y rect; rect_width := rect_width rect;
         rect_height := rect_height rect |}, clip))
  else
    (update h clip (fun c => Clip.set_start_time c new_start), (rect, clip)).

Fixpoint release_items (h : Heap) (items : list (Rect * ref))
  : Heap * list (Rect * ref) :=
  match items with
  | [] => (h, [])
  | item :: rest =>
      let '(h1, item') := release_item h item in
      let '(h2, rest') := release_items h1 rest in
      (h2, item' :: rest')
  end.

(** [mouseReleaseEvent]: every clip takes its start time from the rectangle
    of its item; the track lists are left as they are. The rectangle is what
    [item.rect()] returns, the one the item was made with or the one line
    533 gave it: dragging a movable item changes its [pos()], which the
    handler does not read, and leaves [rect()] as it is. *)
Definition mouseReleaseEvent (app : App) : App :=
  let '(h', items') := release_items (heap app) (graphics_to_clip app) in
  {| heap := h'; project := project app; graphics_to_clip := items';
     duration_cache := duration_cache app |}.

(** ** Paths and formatting *)

Definition ends_with (s suffix : string) : bool :=
  let n := String.length s in
  let m := String.length suffix in
  (m <=? n)%nat && String.eqb (substring (n - m) m s) suffix.

(** [os.path.join(a, b)] on POSIX. *)
Definition path_join (a b : string) : string :=
  if prefix "/" b then b
  else if String.eqb a "" || ends_with a "/" then a ++ b
  else a ++ "/" ++ b.

(** [str(n)] for a natural number and for an integer *)
Definition str_nat (n : nat) : string := NilZero.string_of_uint (Nat.to_uint n).

Definition str_int (z : Z) : string := NilZero.string_of_int (Z.to_int z).

(** [f"{idx:03d}"] *)
Definition format_03d (idx : nat) : string :=
  let s := str_nat idx in
  match String.length s with
  | 1%nat => "00" ++ s
  | 2%nat => "0" ++ s
  | _ => s
  end.

(** ** Files, the engine and the export monad *)

Inductive FileData : Type :=
| TextLines (lines : list string)
| MediaData (complete : bool) (producer : Cmd).

Definition FS : Type := string -> option FileData.

Definition fs_write (fs : FS) (path : string) (d : FileData) : FS :=
  fun p => if String.eqb p path then Some d else fs p.

(** The media engine: what running a command does to the files, and whether
    the process exits with status 0. *)
Definition Engine : Type := Cmd -> FS -> bool * FS.

Record World : Type := { files : FS; trace : list Event }.

(** Code that runs commands: it can raise, and the files and the trace of
    what ran so far survive the exception. *)
Definition M (A : Type) : Type := World -> Exc A * World.

Definition ret {A : Type} (a : A) : M A := fun w => (inr a, w).

Definition bind {A B : Type} (m : M A) (k : A -> M B) : M B :=
  fun w =>
    match m w with
    | (inl e, w') => (inl e, w')
    | (inr a, w') => k a w'
    end.

Definition lift {A : Type} (e : Exc A) : M A := fun w => (e, w).

Declare Scope run_scope.
Delimit Scope run_scope with run.
Notation "x <- m ;; k" := (bind m (fun x => k))
  (at level 61, m at next level, right associativity) : run_scope.

(** [subprocess.run(cmd, ..., check=True)] *)
Definition subprocess_run_check (engine : Engine) (c : Cmd) : M unit :=
  fun w =>
    let '(ok, fs') := engine c (files w) in
    let w' := {| files := fs'; trace := trace w ++ [Ffmpeg c ok] |} in
    if ok then (inr tt, w') else (inl (CalledProcessError "ffmpeg"), w').

(** [with open(path, "w") as f: for line in lines: f.write(line + "\n")] *)
Definition write_lines (path : string) (lines : list string) : M unit :=
  fun w =>
    (inr tt, {| files := fs_write (files w) path (TextLines lines);
                trace := trace w ++ [WriteLines path lines] |}).

(** ** MainWindow._export_with_ffmpeg *)

Section TrimLoops.
Variable engine : Engine.
Variable h : Heap.
Variable media : Dict.t MediaItem.t.
Variable temp_dir : string.

(** [for idx, clip in enumerate(self.project.video_clips): ...] *)
Fixpoint trim_video_clips (idx : nat) (clips : list ref)
    (tmp_video_files : list string) : M (list string) :=
  match clips with
  | [] => ret tmp_video_files
  | clip :: rest =>
      (m <- lift (Dict.item media (Clip.media_id (deref h clip))) ;;
       let tmp_out := path_join temp_dir ("v_" ++ format_03d idx ++ ".mp4") in
       _ <- subprocess_run_check engine
              (TrimVideo (Clip.in_point (deref h clip)) (MediaItem.path m)
                 (Clip.out_point (deref h clip) - Clip.in_point (deref h clip))
                 tmp_out) ;;
       trim_video_clips (S idx) rest (tmp_video_files ++ [tmp_out]))%run
  end.

(** [for idx, clip in enumerate(self.project.audio_clips): ...] *)
Fixpoint trim_audio_clips (idx : nat) (clips : list ref)
    (tmp_audio_files : list (string * Q)) : M (list (string * Q)) :=
  match clips with
  | [] => ret tmp_audio_files
  | clip :: rest =>
      (m <- lift (Dict.item media (Clip.media_id (deref h clip))) ;;
       let tmp_out := path_join temp_dir ("a_" ++ format_03d idx ++ ".mp3") in
       _ <- subprocess_run_check engine
              (TrimAudio (Clip.in_point (deref h clip)) (MediaItem.path m)
                 (Clip.out_point (deref h clip) - Clip.in_point (deref h clip))
                 tmp_out) ;;
       trim_audio_clips (S idx) rest
         (tmp_audio_files ++ [(tmp_out, Clip.start_time (deref h clip))]))%run
  end.
End TrimLoops.

(** [for idx, (audio_path, start) in enumerate(tmp_audio_files): ...] *)
Fixpoint build_filter (idx : nat) (tmp_audio_files : list (string * Q))
    (input_cmds : list string) (filter_parts : list FilterPart)
  : list string * list FilterPart :=
  match tmp_audio_files with
  | [] => (input_cmds, filter_parts)
  | (audio_path, start) :: rest =>
      let delay_ms := py_int (start * 1000) in
      build_filter (S idx) rest (input_cmds ++ [audio_path])
        (filter_parts ++ [Adelay idx [delay_ms; delay_ms] idx])
  end.

(** [_export_with_ffmpeg], after [os.makedirs(temp_dir, exist_ok=True)]. *)
Definition _export_with_ffmpeg (engine : Engine) (h : Heap) (self : Project.t)
    (output_path : string) : M unit :=
  let temp_dir := path_join (Project.workspace_dir self) "export_tmp" in
  (tmp_video_files <-
     trim_video_clips engine h (Project.media self) temp_dir 0
       (Project.video_clips self) [] ;;
   let concat_list_path := path_join temp_dir "video_list.txt" in
   _ <- write_lines concat_list_path
          (map (fun file_path : string => ("file '" ++ file_path ++ "'")%string)
             tmp_video_files) ;;
   let video_concat_path := path_join temp_dir "video_concat.mp4" in
   _ <- subprocess_run_check engine (Concat concat_list_path video_concat_path) ;;
   match Project.audio_clips self with
   | [] => subprocess_run_check engine (Encode video_concat_path output_path)
   | _ :: _ =>
       tmp_audio_files <-
         trim_audio_clips engine h (Project.media self) temp_dir 0
           (Project.audio_clips self) [] ;;
       let '(input_cmds, filter_parts) := build_filter 0 tmp_audio_files [] [] in
       let n := length tmp_audio_files in
       let filter_complex := filter_parts ++ [AmixLongest (seq 0 n) n] in
       subprocess_run_check engine
         (MixMux video_concat_path input_cmds filter_complex output_path)
   end)%run.

(** ** MainWindow.export_project *)

Inductive Dialog : Type :=
| WarningFFmpegMissing
    (** [QMessageBox.warning(..., "FFmpeg Missing", ...)] *)
| InformationNothingToExport
    (** [QMessageBox.information(..., "Nothing to Export", ...)] *)
| NoDialog
    (** the file dialog was cancelled *)
| InformationExportComplete (output_path : string)
| CriticalExportError (e : exn)
| Uncaught (e : exn).
    (** no box: the exception leaves [export_project] *)

(** [chosen] is what [QFileDialog.getSaveFileName] returns, empty when the
    user cancels. The call of [ffprobe_installed] stands outside the [try]. *)
Definition export_project (env : ProbeEnv) (engine : Engine) (h : Heap)
    (self : Project.t) (chosen : string) (w : World) : Dialog * World :=
  let '(installed, ev) := ffprobe_installed env in
  let w0 := {| files := files w; trace := trace w ++ ev |} in
  match installed with
  | inl e => (Uncaught e, w0)
  | inr installed =>
      if negb installed then (WarningFFmpegMissing, w0)
      else
        match Project.video_clips self with
        | [] => (InformationNothingToExport, w0)
        | _ :: _ =>
            if String.eqb chosen "" then (NoDialog, w0)
            else
              let output_path :=
                if ends_with chosen ".mp4" then chosen
                else (chosen ++ ".mp4")%string in
              match _export_with_ffmpeg engine h self output_path w0 with
              | (inr _, w') => (InformationExportComplete output_path, w')
              | (inl e, w') => (CriticalExportError e, w')
              end
        end
  end.


(** ** The export as a plan

    The commands of an export depend on the project only, not on what the
    engine answers: [plan] lists them in the order the code reaches them, and
    [exec] runs such a list the way the code runs its commands, stopping at
    the first exception.  [export_is_exec] below shows that
    [_export_with_ffmpeg] is [exec] of [plan]. *)

Inductive Step : Type :=
| DoRun (c : Cmd)
| DoWrite (path : string) (lines : list string)
| DoRaise (e : exn).

Fixpoint exec (engine : Engine) (steps : list Step) : M unit :=
  match steps with
  | [] => ret tt
  | DoRun c :: rest => (_ <- subprocess_run_check engine c ;; exec engine rest)%run
  | DoWrite p l :: rest => (_ <- write_lines p l ;; exec engine rest)%run
  | DoRaise e :: _ => lift (inl e)
  end.

Definition video_file (temp_dir : string) (idx : nat) : string :=
  path_join temp_dir ("v_" ++ format_03d idx ++ ".mp4").

Definition audio_file (temp_dir : string) (idx : nat) : string :=
  path_join temp_dir ("a_" ++ format_03d idx ++ ".mp3").

Fixpoint video_steps (h : Heap) (media : Dict.t MediaItem.t) (temp_dir : string)
    (idx : nat) (clips : list ref) : list Step :=
  match clips with
  | [] => []
  | clip :: rest =>
      match Dict.item media (Clip.media_id (deref h clip)) with
      | inl e => [DoRaise e]
      | inr m =>
          DoRun (TrimVideo (Clip.in_point (deref h clip)) (MediaItem.path m)
                   (Clip.out_point (deref h clip) - Clip.in_point (deref h clip))
                   (video_file temp_dir idx))
          :: video_steps h media temp_dir (S idx) rest
      end
  end.

Fixpoint audio_steps (h : Heap) (media : Dict.t MediaItem.t) (temp_dir : string)
    (idx : nat) (clips : list ref) : list Step :=
  match clips with
  | [] => []
  | clip :: rest =>
      match Dict.item media (Clip.media_id (deref h clip)) with
      | inl e => [DoRaise e]
      | inr m =>
          DoRun (TrimAudio (Clip.in_point (deref h clip)) (MediaItem.path m)
                   (Clip.out_point (deref h clip) - Clip.in_point (deref h clip))
                   (audio_file temp_dir idx))
          :: audio_steps h media temp_dir (S idx) rest
      end
  end.

(** The names [v_000.mp4], [v_001.mp4], ... for [n] clips from [idx] on. *)
Definition video_files (temp_dir : string) (idx n : nat) : list string :=
  map (video_file temp_dir) (seq idx n).

Definition audio_files (temp_dir : string) (idx n : nat) : list string :=
  map (audio_file temp_dir) (seq idx n).

Definition concat_line (file_path : string) : string :=
  "file '" ++ file_path ++ "'".

(** The delay, in milliseconds, of the audio clip [r]. *)
Definition delay_ms (h : Heap) (r : ref) : Z :=
  py_int (Clip.start_time (deref h r) * 1000).

Definition adelays (h : Heap) (idx : nat) (clips : list ref) : list FilterPart :=
  map (fun ir => Adelay (fst ir) [delay_ms h (snd ir); delay_ms h (snd ir)] (fst ir))
      (combine (seq idx (length clips)) clips).

Definition plan (h : Heap) (p : Project.t) (output_path : string) : list Step :=
  let temp_dir := path_join (Project.workspace_dir p) "export_tmp" in
  let nv := length (Project.video_clips p) in
  let na := length (Project.audio_clips p) in
  let concat := path_join temp_dir "video_concat.mp4" in
  video_steps h (Project.media p) temp_dir 0 (Project.video_clips p)
  ++ [ DoWrite (path_join temp_dir "video_list.txt")
         (map concat_line (video_files temp_dir 0 nv));
       DoRun (Concat (path_join temp_dir "video_list.txt") concat) ]
  ++ match Project.audio_clips p with
     | [] => [ DoRun (Encode concat output_path) ]
     | _ :: _ =>
         audio_steps h (Project.media p) temp_dir 0 (Project.audio_clips p)
         ++ [ DoRun (MixMux concat (audio_files temp_dir 0 na)
                       (adelays h 0 (Project.audio_clips p)
                        ++ [AmixLongest (seq 0 na) na])
                       output_path) ]
     end.

(** ** Properties of tracks *)

(** The clips of a track are in ascending order of start time. *)
Definition track_sorted (h : Heap) (track : list ref) : Prop :=
  Sorted Qle (map (Project.start_key h) track).

(** Every clip of the track refers to a media item of the catalogue. *)
Definition track_resolves (h : Heap) (media : Dict.t MediaItem.t)
    (track : list ref) : Prop :=
  Forall (fun r => Dict.mem media (Clip.media_id (deref h r)) = true) track.

(** The catalogue is keyed by the items' own ids, as [add_media] and
    [from_dict] store them. *)
Definition keyed_by_id (media : Dict.t MediaItem.t) : Prop :=
  Forall (fun kv => fst kv = MediaItem.id (snd kv)) media /\ NoDup (Dict.keys media).

(** ** Vocabulary of the export statements *)

(** The engine carries out every request. *)
Definition engine_accepts_all (engine : Engine) : Prop :=
  forall c fs, fst (engine c fs) = true.


(** [c] is the trim of the video clip [r]: it seeks to the clip's in point in
    the file of the clip's media item and stops [out_point - in_point] later,
    that is, it extracts the source range from in point to out point. *)
Definition trims_video (h : Heap) (media : Dict.t MediaItem.t) (r : ref)
    (c : Cmd) : Prop :=
  exists m file,
    Dict.get media (Clip.media_id (deref h r)) = Some m /\
    c = TrimVideo (Clip.in_point (deref h r)) (MediaItem.path m)
          (Clip.out_point (deref h r) - Clip.in_point (deref h r)) file.

Definition trims_audio (h : Heap) (media : Dict.t MediaItem.t) (r : ref)
    (c : Cmd) : Prop :=
  exists m file,
    Dict.get media (Clip.media_id (deref h r)) = Some m /\
    c = TrimAudio (Clip.in_point (deref h r)) (MediaItem.path m)
          (Clip.out_point (deref h r) - Clip.in_point (deref h r)) file.






(** Requests that mix audio. *)
Definition is_audio_mix (e : Event) : bool :=
  match e with Ffmpeg (MixMux _ _ _ _) _ => true | _ => false end.

(** What a step that ran without failing leaves in the trace. *)
Definition event_of (s : Step) : list Event :=
  match s with
  | DoRun c => [Ffmpeg c true]
  | DoWrite path lines => [WriteLines path lines]
  | DoRaise _ => []
  end.

Definition raises (s : Step) : bool :=
  match s with DoRaise _ => true | _ => false end.

(** An event other than a failed run. *)
Definition ran_ok (e : Event) : bool :=
  match e with Ffmpeg _ ok => ok | _ => true end.

(** The per-channel delays of the inputs of a filter graph, input by input. *)
Definition graph_delays (graph : list FilterPart) : list (list Z) :=
  flat_map (fun part => match part with
                        | Adelay _ delays _ => [delays]
                        | AmixLongest _ _ => []
                        end) graph.

(** The text the source writes for a filter graph: [str] of the integers,
    the delays of one input joined by a bar, the parts joined with nothing
    between them. *)
Definition render_part (part : FilterPart) : string :=
  (match part with
   | Adelay input delays label =>
       "[" ++ str_nat input ++ ":a]adelay="
       ++ String.concat "|" (map str_int delays)
       ++ "[a" ++ str_nat label ++ "];"
   | AmixLongest labels inputs =>
       String.concat "" (map (fun l : nat => "[a" ++ str_nat l ++ "]") labels)
       ++ "amix=inputs=" ++ str_nat inputs ++ ":duration=longest[aout]"
   end)%string.

Definition render_filter (graph : list FilterPart) : string :=
  String.concat "" (map render_part graph).

(** The last request of an export, the one that writes the output file. *)
Definition is_final_mux (c : Cmd) : bool :=
  match c with
  | Encode _ _ | MixMux _ _ _ _ => true
  | _ => false
  end.

(** The file a step writes, if it writes one. *)
Definition step_out (s : Step) : option string :=
  match s with
  | DoRun c => Some (cmd_out c)
  | DoWrite path _ => Some path
  | DoRaise _ => None
  end.

(** The plan without its last request, and that request. *)
Definition upstream_steps (h : Heap) (p : Project.t) : list Step :=
  let temp_dir := path_join (Project.workspace_dir p) "export_tmp" in
  video_steps h (Project.media p) temp_dir 0 (Project.video_clips p)
  ++ [ DoWrite (path_join temp_dir "video_list.txt")
         (map concat_line
            (video_files temp_dir 0 (length (Project.video_clips p))));
       DoRun (Concat (path_join temp_dir "video_list.txt")
                (path_join temp_dir "video_concat.mp4")) ]
  ++ match Project.audio_clips p with
     | [] => []
     | _ :: _ =>
         audio_steps h (Project.media p) temp_dir 0 (Project.audio_clips p)
     end.

Definition final_cmd (h : Heap) (p : Project.t) (output_path : string) : Cmd :=
  let temp_dir := path_join (Project.workspace_dir p) "export_tmp" in
  let na := length (Project.audio_clips p) in
  match Project.audio_clips p with
  | [] => Encode (path_join temp_dir "video_concat.mp4") output_path
  | _ :: _ =>
      MixMux (path_join temp_dir "video_concat.mp4") (audio_files temp_dir 0 na)
        (adelays h 0 (Project.audio_clips p) ++ [AmixLongest (seq 0 na) na])
        output_path
  end.

(** The track a label names: the video track for ["video"], the audio track
    for every other string. *)
Definition track_named (p : Project.t) (track : string) : list ref :=
  if String.eqb track "video" then Project.video_clips p else Project.audio_clips p.

(** The start time [mouseReleaseEvent] stores for an item whose left edge is
    at [x]. *)
Definition released_start (x : Q) : Q :=
  if Qltb (x / pixels_per_second) 0 then 0 else x / pixels_per_second.

(** The three components of what [get_media_duration] returns. *)
Definition probed (r : Exc Q * Dict.t Q * list Event) : Exc Q := fst (fst r).
Definition cache_after (r : Exc Q * Dict.t Q * list Event) : Dict.t Q :=
  snd (fst r).
Definition programs_run (r : Exc Q * Dict.t Q * list Event) : list Event :=
  snd r.

(** What the audio loop collects: each file with its clip's start time. *)
Definition audio_entries (h : Heap) (temp_dir : string) (idx : nat)
    (clips : list ref) : list (string * Q) :=
  combine (audio_files temp_dir idx (length clips))
          (map (fun r => Clip.start_time (deref h r)) clips).

(** A step that writes nothing outside the directory [d]. *)
Definition step_under (d : string) (s : Step) : Prop :=
  forall path, step_out s = Some path -> prefix d path = true.

(** ** Scenarios

    Concrete sessions, built with the operations above, on which the
    statements below are tried. *)

Definition clip_media : MediaItem.t :=
  MediaItem.mk "/media/a.mp4" "video" "/ws/thumbnails/a_1f.jpg" "m1".

Definition song_media : MediaItem.t :=
  MediaItem.mk "/media/b.mp3" "audio" "/ws/thumbnails/b_2e.jpg" "m2".

(** ffprobe answers 3 seconds for every file. *)
Definition probe3 : ProbeEnv :=
  {| ffprobe_version := inr tt;
     ffprobe_stdout := fun _ => inr "3.000000";
     py_float := fun _ => inr 3 |}.

Definition app_start : App :=
  {| heap := [];
     project :=
       Project.add_media
         (Project.add_media
            (Project.init "/home/u/video_editor_workspace" "/home/u/Videos")
            clip_media)
         song_media;
     graphics_to_clip := [];
     duration_cache := Dict.empty |}.

(** Two drops of [m1] on the video track, at 1 s and at 3 s. *)
Definition app_two_clips : App :=
  (dropped probe3 ((dropped probe3 app_start "m1" 100 10)) "m1" 300 10).

Definition intro_media : MediaItem.t :=
  MediaItem.mk "/media/intro.mp4" "video" "/ws/thumbnails/intro_7c.jpg" "m3".

(** ffprobe answers 4 seconds for the intro and 3 seconds for other files. *)
Definition probe_by_file : ProbeEnv :=
  {| ffprobe_version := inr tt;
     ffprobe_stdout := fun path =>
       if String.eqb path "/media/intro.mp4" then inr "4.000000" else inr "3.000000";
     py_float := fun s =>
       if String.eqb s "4.000000" then inr 4
       else if String.eqb s "3.000000" then inr 3
       else inl (ValueError s) |}.

Definition app_with_intro : App :=
  {| heap := heap app_start;
     project := Project.add_media (project app_start) intro_media;
     graphics_to_clip := [];
     duration_cache := Dict.empty |}.

(** A 3 s clip at 0 s and a 4 s clip at 5 s on the video track, no audio. *)
Definition app_video_only : App :=
  (dropped probe_by_file
         ((dropped probe_by_file app_with_intro "m1" 0 10)) "m3" 500 10).

(** One video clip, and the song at 0 s and at 2.5 s on the audio track. *)
Definition app_with_audio : App :=
  (dropped probe_by_file
         ((dropped probe_by_file
                 ((dropped probe_by_file app_with_intro "m1" 0 10))
                 "m2" 0 70))
         "m2" 250 70).

(** An engine that carries out every request. *)
Definition accept_all : Engine :=
  fun c fs => (true, fs_write fs (cmd_out c) (MediaData true c)).

Definition empty_world : World := {| files := fun _ => None; trace := [] |}.

(** An engine whose final encode dies half way: it leaves an incomplete file
    at the output path and exits with a non-zero status.  Every other request
    is carried out. *)
Definition dies_in_final_mux : Engine :=
  fun c fs =>
    if is_final_mux c then (false, fs_write fs (cmd_out c) (MediaData false c))
    else (true, fs_write fs (cmd_out c) (MediaData true c)).

(** A machine without ffprobe. *)
Definition no_ffprobe : ProbeEnv :=
  {| ffprobe_version := inl (FileNotFoundError "ffprobe");
     ffprobe_stdout := fun _ => inl (FileNotFoundError "ffprobe");
     py_float := fun s => inl (ValueError s) |}.

Definition title_media : MediaItem.t :=
  MediaItem.mk "/media/title.png" "image" "/ws/thumbnails/title_0d.jpg" "m4".

(** A video, an audio and an image asset; two clips on each track. *)
Definition app_full : App :=
  let app := {| heap := heap app_two_clips;
                project := Project.add_media (project app_two_clips) title_media;
                graphics_to_clip := graphics_to_clip app_two_clips;
                duration_cache := duration_cache app_two_clips |} in
  (dropped probe3 ((dropped probe3 app "m2" 0 70)) "m4" 250 70).

(** Three drops on the video track, at 5 s, 1 s and 3 s in that order. *)
Definition app_5_1_3 : App :=
  (dropped probe3
         ((dropped probe3
                 ((dropped probe3 app_start "m1" 500 10)) "m1" 100 10))
         "m1" 300 10).

(** Two drops at the same place, the video first and the intro second, and a
    third one before them. *)
Definition app_same_start : App :=
  (dropped probe_by_file
         ((dropped probe_by_file
                 ((dropped probe_by_file app_with_intro "m1" 200 10))
                 "m3" 200 10))
         "m1" 100 10).

(** ffprobe runs and prints [N/A], which [float] refuses. *)
Definition failing_probe : ProbeEnv :=
  {| ffprobe_version := inr tt;
     ffprobe_stdout := fun _ => inr "N/A";
     py_float := fun s => inl (ValueError s) |}.

(** * The rest of the program *)

(** ** How ffmpeg numbers the inputs of a command

    Input [k] of a command is its [k]-th [-i] argument, counted from 0; in a
    filter graph [[k:a]] is the audio of input [k]. *)

Definition ffmpeg_inputs (c : Cmd) : list string :=
  match c with
  | TrimVideo _ i _ _ | TrimAudio _ i _ _ | Encode i _ => [i]
  | Concat list_path _ => [list_path]
  | MixMux i audio _ _ => i :: audio
  end.

(** The input a part of a filter graph reads, if it reads one by number. *)
Definition part_input (part : FilterPart) : option nat :=
  match part with
  | Adelay input _ _ => Some input
  | AmixLongest _ _ => None
  end.

Definition cmd_filter (c : Cmd) : list FilterPart :=
  match c with
  | MixMux _ _ filter_complex _ => filter_complex
  | _ => []
  end.

(** ** MediaLibraryWidget: the list and its context menu *)

(** A [QListWidgetItem] of the library: the icon's file, the text and the
    media id kept under [Qt.UserRole]. *)
Record ListItem : Type := {
  item_icon : string;
  item_text : string;
  item_data : string
}.

(** [takeItem(row)] *)
Fixpoint take_item {A : Type} (row : nat) (items : list A) : list A :=
  match items, row with
  | [], _ => []
  | _ :: rest, O => rest
  | x :: rest, S row' => x :: take_item row' rest
  end.

(** The part of [contextMenuEvent] that touches the catalogue:
    [if media_id in self.project.media: del self.project.media[media_id]].
    The clips of both tracks are left as they are. *)
Definition remove_media (p : Project.t) (media_id : string) : Project.t :=
  if Dict.mem (Project.media p) media_id then
    Project.mk (Dict.del (Project.media p) media_id)
      (Project.video_clips p) (Project.audio_clips p)
      (Project.workspace_dir p) (Project.export_dir p)
  else p.

(** [contextMenuEvent]: [row] is the row of the item under the pointer, if
    there is one, and [chose_remove] tells whether the menu returned the
    Remove action. *)
Definition contextMenuEvent (p : Project.t) (items : list ListItem)
    (row : option nat) (chose_remove : bool) : Project.t * list ListItem :=
  match row with
  | None => (p, items)
  | Some i =>
      match nth_error items i with
      | None => (p, items)
      | Some item =>
          if chose_remove then (remove_media p (item_data item), take_item i items)
          else (p, items)
      end
  end.


(** [app_two_clips] after the Remove action on its first library row, the
    video [m1] that both clips refer to. *)
Definition project_without_m1 : Project.t :=
  fst (contextMenuEvent (project app_two_clips)
         [ {| item_icon := "/ws/thumbnails/a_1f.jpg"; item_text := "a.mp4";
              item_data := "m1" |};
           {| item_icon := "/ws/thumbnails/b_2e.jpg"; item_text := "b.mp3";
              item_data := "m2" |} ]
         (Some 0%nat) true).

(** ** Reading an index back

    [int(s)] for a string of decimal digits. *)
Definition parse_nat (s : string) : option nat :=
  option_map Nat.of_uint (NilEmpty.uint_of_string s).

(** The directory an export keeps its intermediate files in. *)
Definition export_tmp (p : Project.t) : string :=
  path_join (Project.workspace_dir p) "export_tmp".

(** Every intermediate file of an export of [p]. *)
Definition export_tmp_files (p : Project.t) : list string :=
  video_files (export_tmp p) 0 (length (Project.video_clips p))
  ++ audio_files (export_tmp p) 0 (length (Project.audio_clips p))
  ++ [ path_join (export_tmp p) "video_list.txt";
       path_join (export_tmp p) "video_concat.mp4" ].

(** An event of the trace comes from a step of the list that ran. *)
Definition event_from (ev : Event) (s : Step) : Prop :=
  match ev, s with
  | Ffmpeg c _, DoRun c' => c = c'
  | WriteLines path lines, DoWrite path' lines' => path = path' /\ lines = lines'
  | _, _ => False
  end.

(** The files a list of steps writes, in order. *)
Definition step_outputs (steps : list Step) : list string :=
  flat_map (fun s => match step_out s with Some f => [f] | None => [] end) steps.

(** ** TimelineWidget: drawing the tracks *)

(** [for clip in clips: self._draw_clip(clip, track)] *)
Fixpoint draw_clips (h : Heap) (p : Project.t) (items : list (Rect * ref))
    (clips : list ref) (track : string) : list (Rect * ref) :=
  match clips with
  | [] => items
  | clip :: rest => draw_clips h p (_draw_clip h p items clip track) rest track
  end.

(** [_draw_tracks]: the scene and [graphics_to_clip] are cleared, then the
    clips of the video track and of the audio track are drawn. *)
Definition _draw_tracks (h : Heap) (p : Project.t) : list (Rect * ref) :=
  draw_clips h p (draw_clips h p [] (Project.video_clips p) "video")
             (Project.audio_clips p) "audio".

(** [refresh] *)
Definition refresh (app : App) : App :=
  {| heap := heap app; project := project app;
     graphics_to_clip := _draw_tracks (heap app) (project app);
     duration_cache := duration_cache app |}.

(** Whether the media item of a clip is in the catalogue. *)
Definition clip_resolves (h : Heap) (p : Project.t) (r : ref) : bool :=
  Dict.mem (Project.media p) (Clip.media_id (deref h r)).

(** The clips of both tracks, video first. *)
Definition all_clips (p : Project.t) : list ref :=
  Project.video_clips p ++ Project.audio_clips p.

(** The shape of a session: every clip object sits in one place of one
    track and is allocated, and the timeline holds at most one item per clip,
    each for a clip of a track. *)
Definition session_ok (app : App) : Prop :=
  NoDup (all_clips (project app)) /\
  Forall (fun r => (r < length (heap app))%nat) (all_clips (project app)) /\
  NoDup (map snd (graphics_to_clip app)) /\
  Forall (fun it => In (snd it) (all_clips (project app))) (graphics_to_clip app).

(** The rectangle [_draw_clip] gives the item of a clip. *)
Definition drawn_rect (c : Clip.t) (track : string) : Rect :=
  {| rect_x := Clip.start_time c * pixels_per_second;
     rect_y := if String.eqb track "video" then video_y else audio_y;
     rect_width := (Clip.out_point c - Clip.in_point c) * pixels_per_second;
     rect_height := track_height |}.

(** ** PreviewPlayer

    The state [play_next] and its callers read and write: the playlist, the
    index into it and the [_playing] flag. *)
Record Player : Type := {
  _playlist : list ref;
  _current_index : Z;
  _playing : bool
}.

(** [PreviewPlayer.__init__] *)
Definition new_player : Player :=
  {| _playlist := []; _current_index := (-1)%Z; _playing := false |}.

(** [build_playlist]: [sorted] makes a new list, the video track is left as
    it is. *)
Definition build_playlist (h : Heap) (p : Project.t) (st : Player) : Player :=
  {| _playlist := sort_by_key (Project.start_key h) (Project.video_clips p);
     _current_index := (-1)%Z;
     _playing := _playing st |}.

(** [stop] *)
Definition stop (st : Player) : Player :=
  {| _playlist := _playlist st; _current_index := (-1)%Z; _playing := false |}.

(** A global name that is looked up and not found. *)
Inductive NameError : Type := NameNotDefined (name : string).

(** [play_next]. The method calls itself for a clip whose media item is
    gone; [fuel] bounds the depth of these calls, and [None] is a run that
    needs more. The index is [-1] or a position of the playlist, so the
    subscript [self._playlist[self._current_index]] never counts from the
    end. For a clip whose media item is there, the next line is
    [url = QUrl.fromLocalFile(media.path)]: the module imports [QFileInfo],
    [QPoint], [QRectF], [Qt], [QTimer] and [pyqtSignal] from [PyQt5.QtCore]
    and never binds the name [QUrl], so the line raises. *)
Fixpoint play_next_from (fuel : nat) (h : Heap) (p : Project.t) (st : Player)
  : option (NameError + Player) :=
  match fuel with
  | O => None
  | S fuel' =>
      let idx := (_current_index st + 1)%Z in
      let st' := {| _playlist := _playlist st; _current_index := idx;
                    _playing := _playing st |} in
      if (idx <? Z.of_nat (length (_playlist st)))%Z then
        let clip := nth (Z.to_nat idx) (_playlist st) 0%nat in
        match Dict.get (Project.media p) (Clip.media_id (deref h clip)) with
        | None => play_next_from fuel' h p st'
        | Some media => Some (inl (NameNotDefined "QUrl"))
        end
      else Some (inr (stop st'))
  end.

(** One call for each entry of the playlist and one more are enough. *)
Definition play_next (h : Heap) (p : Project.t) (st : Player)
  : option (NameError + Player) :=
  play_next_from (S (length (_playlist st))) h p st.

(** ** The library and the main window *)

(** What the window takes from [os.path], [pathlib] and [str]. *)
Record PathEnv : Type := {
  abspath : string -> string;
  isfile : string -> bool;
  path_name : string -> string;
  path_stem : string -> string;
  path_suffix : string -> string;
  path_match : string -> string -> bool;
  str_lower : string -> string
}.



(** The row the library shows for a media item. *)
Definition list_item_of (env : PathEnv) (item : MediaItem.t) : ListItem :=
  {| item_icon := MediaItem.thumbnail item;
     item_text := path_name env (MediaItem.path item);
     item_data := MediaItem.id item |}.



Module MainWindow.
(** The timeline widget with the project and the heap of clips, the rows of
    the library and the preview player. The three widgets share the one
    project object of the window. *)
Record t : Type := mk {
  timeline : App;
  library : list ListItem;
  preview : Player
}.

Definition with_project (self : t) (h : Heap) (p : Project.t) : App :=
  {| heap := h; project := p;
     graphics_to_clip := graphics_to_clip (timeline self);
     duration_cache := duration_cache (timeline self) |}.


(** [open_project]; [file_path] is what the file dialog returns, empty when
    it is cancelled, and [loaded] what opening and decoding that file gives.
    An error stands for the "Failed to open project" box; the window it
    leaves behind is not described. *)
Definition open_project (env : PathEnv)
    (default_workspace default_export : string)
    (proceed : bool) (file_path : string) (loaded : Exc json) (self : t)
  : Exc t :=
  if negb proceed then inr self
  else if String.eqb file_path "" then inr self
  else
    (data <- loaded ;;
     hp <- Project.from_dict default_workspace default_export
             (heap (timeline self)) data ;;
     let h := fst hp in
     let p := snd hp in
     inr (mk (refresh (with_project self h p))
             (map (list_item_of env) (Dict.values (Project.media p)))
             (build_playlist h p (preview self))))%exc.



End MainWindow.



(** A disk with the one file [/media/c.mkv] on it. *)
Definition one_mkv : PathEnv :=
  {| abspath := fun p => p;
     isfile := fun p => String.eqb p "/media/c.mkv";
     path_name := fun _ => "c.mkv";
     path_stem := fun _ => "c";
     path_suffix := fun _ => ".mkv";
     path_match := fun _ pattern => String.eqb pattern "*.mkv";
     str_lower := fun s => s |}.

(** The window of [app_start]: the library shows its two media items. *)
Definition window_start : MainWindow.t :=
  MainWindow.mk app_start
    [ {| item_icon := "/ws/thumbnails/a_1f.jpg"; item_text := "a.mp4";
         item_data := "m1" |};
      {| item_icon := "/ws/thumbnails/b_2e.jpg"; item_text := "b.mp3";
         item_data := "m2" |} ]
    new_player.


(** ** The position slider of the preview

    [media_player.duration()] and the position are integers, in
    milliseconds; [/] is the division of floats. *)

(** [update_position]: the value of the slider afterwards, [slider] being
    its value before. *)
Definition update_position (duration position slider : Z) : Z :=
  if (duration >? 0)%Z
  then py_int (inject_Z position / inject_Z duration * 1000)
  else slider.

(** [seek]: the position handed to [setPosition], if one is. *)
Definition seek (duration value : Z) : option Z :=
  if (duration >? 0)%Z
  then Some (py_int (inject_Z value / 1000 * inject_Z duration))
  else None.

(** ** Sessions for the order of a track and for a move *)

(** Every item has the left edge its clip's start time gives it: the
    rectangle [_draw_clip] makes, and the one [mouseReleaseEvent] leaves. *)
Definition items_as_drawn (app : App) : Prop :=
  Forall (fun it => rect_x (fst it)
                    == Clip.start_time (deref (heap app) (snd it))
                       * pixels_per_second)
         (graphics_to_clip app).

(** A project file whose video track lists a clip at 5 s before a clip at
    3 s. *)
Definition unsorted_document : json :=
  JObj [ ("media", JArr [MediaItem.to_dict clip_media]);
         ("video_clips", JArr [ Clip.to_dict (Clip.mk "m1" 0 3 5);
                                Clip.to_dict (Clip.mk "m1" 0 3 3) ]);
         ("audio_clips", JArr []) ].

(** File > Open on that file, from [window_start]. *)
Definition open_unsorted : Exc MainWindow.t :=
  MainWindow.open_project one_mkv "/home/u/video_editor_workspace" "/home/u/Videos"
    true "/home/u/unsorted.json" (inr unsorted_document) window_start.

(** One drop of [m1] on the video track, at 1 s. *)
Definition app_one_clip : App := dropped probe3 app_start "m1" 100 10.


(** * Proofs *)

(** ** Comparisons of rationals *)

Lemma Qltb_lt (x y : Q) : Qltb x y = true <-> x < y.
Proof.
  unfold Qltb. rewrite negb_true_iff. split.
  - intros H. apply Qnot_le_lt. intros Hle.
    apply Qle_bool_iff in Hle. congruence.
  - intros H. destruct (Qle_bool y x) eqn:E; [|reflexivity].
    apply Qle_bool_iff in E. exfalso. exact (Qlt_not_le _ _ H E).
Qed.

Lemma Qltb_ge (x y : Q) : Qltb x y = false <-> y <= x.
Proof.
  unfold Qltb. rewrite negb_false_iff. apply Qle_bool_iff.
Qed.

Lemma Qle_bool_false (x y : Q) : Qle_bool x y = false -> y < x.
Proof.
  intros H. apply Qnot_le_lt. intros Hle.
  apply Qle_bool_iff in Hle. congruence.
Qed.

(** ** The stable sort *)

Section SortFacts.
Context {A : Type} (key : A -> Q).

Lemma insert_sorted_perm (x : A) (l : list A) :
  Permutation (insert_sorted key x l) (x :: l).
Proof.
  induction l as [|y l IH]; simpl.
  - apply Permutation_refl.
  - destruct (Qle_bool (key x) (key y)).
    + apply Permutation_refl.
    + eapply perm_trans; [apply perm_skip, IH | apply perm_swap].
Qed.

Lemma sort_by_key_perm (l : list A) : Permutation (sort_by_key key l) l.
Proof.
  induction l as [|x l IH]; simpl.
  - apply perm_nil.
  - eapply perm_trans; [apply insert_sorted_perm | apply perm_skip, IH].
Qed.

Lemma insert_sorted_hd (x a : A) (l : list A) :
  key a <= key x ->
  HdRel Qle (key a) (map key l) ->
  HdRel Qle (key a) (map key (insert_sorted key x l)).
Proof.
  intros Hax Hl. destruct l as [|y l]; simpl.
  - constructor. exact Hax.
  - destruct (Qle_bool (key x) (key y)); simpl.
    + constructor. exact Hax.
    + inversion Hl; subst. constructor. assumption.
Qed.

Lemma insert_sorted_sorted (x : A) (l : list A) :
  Sorted Qle (map key l) -> Sorted Qle (map key (insert_sorted key x l)).
Proof.
  induction l as [|y l IH]; simpl; intros Hs.
  - repeat constructor.
  - destruct (Qle_bool (key x) (key y)) eqn:E; simpl.
    + constructor; [exact Hs|]. constructor. now apply Qle_bool_iff.
    + inversion Hs; subst. constructor.
      * now apply IH.
      * apply insert_sorted_hd; [|assumption].
        apply Qlt_le_weak. now apply Qle_bool_false.
Qed.

Lemma sort_by_key_sorted (l : list A) : Sorted Qle (map key (sort_by_key key l)).
Proof.
  induction l as [|x l IH]; simpl.
  - constructor.
  - now apply insert_sorted_sorted.
Qed.

(** Stability. *)
Lemma insert_sorted_stable (k : Q) (x : A) (l : list A) :
  filter (same_key key k) (insert_sorted key x l)
  = filter (same_key key k) (x :: l).
Proof.
  induction l as [|y l IH]; [reflexivity|].
  simpl insert_sorted.
  destruct (Qle_bool (key x) (key y)) eqn:E; [reflexivity|].
  apply Qle_bool_false in E.
  change (filter (same_key key k) (y :: insert_sorted key x l))
    with (if same_key key k y
          then y :: filter (same_key key k) (insert_sorted key x l)
          else filter (same_key key k) (insert_sorted key x l)).
  rewrite IH. simpl. unfold same_key.
  destruct (Qeq_bool (key x) k) eqn:Ex, (Qeq_bool (key y) k) eqn:Ey; try reflexivity.
  apply Qeq_bool_iff in Ex, Ey. exfalso.
  rewrite Ex, Ey in E. exact (Qlt_irrefl _ E).
Qed.

Lemma sort_by_key_stable (k : Q) (l : list A) :
  filter (same_key key k) (sort_by_key key l) = filter (same_key key k) l.
Proof.
  induction l as [|x l IH]; [reflexivity|].
  simpl sort_by_key. rewrite insert_sorted_stable. simpl. now rewrite IH.
Qed.

Lemma same_key_self (x : A) : same_key key (key x) x = true.
Proof. unfold same_key. apply Qeq_bool_refl. Qed.

Lemma sorted_head_le (x y : A) (l : list A) :
  Sorted Qle (map key (x :: l)) -> In y l -> key x <= key y.
Proof.
  intros Hs Hin. apply Sorted_StronglySorted in Hs.
  - inversion Hs as [|? ? _ Hall]; subst.
    rewrite Forall_forall in Hall. apply Hall. now apply in_map.
  - intros a b c. apply Qle_trans.
Qed.

(** Two lists that are sorted and hold, key by key, the same elements in the
    same order are the same list. *)
Lemma stable_sorted_unique (l1 : list A) :
  forall l2,
    Sorted Qle (map key l1) ->
    Sorted Qle (map key l2) ->
    (forall k, filter (same_key key k) l1 = filter (same_key key k) l2) ->
    l1 = l2.
Proof.
  induction l1 as [|x l1 IH]; intros l2 S1 S2 Hf.
  - destruct l2 as [|y l2]; [reflexivity|].
    specialize (Hf (key y)). cbn in Hf. rewrite same_key_self in Hf.
    discriminate.
  - destruct l2 as [|y l2].
    { specialize (Hf (key x)). cbn in Hf. rewrite same_key_self in Hf.
      discriminate. }
    assert (Hxy : same_key key (key x) y = true).
    { destruct (same_key key (key x) y) eqn:E; [reflexivity|]. exfalso.
      assert (Hx : In x (y :: l2)).
      { pose proof (Hf (key x)) as H. cbn [filter] in H.
        rewrite same_key_self in H.
        assert (Hin : In x (filter (same_key key (key x)) (y :: l2)))
          by (cbn [filter]; rewrite <- H; now left).
        apply filter_In in Hin. tauto. }
      assert (Hy : In y (x :: l1)).
      { pose proof (Hf (key y)) as H. cbn [filter] in H.
        rewrite (same_key_self y) in H.
        assert (Hin : In y (filter (same_key key (key y)) (x :: l1)))
          by (cbn [filter]; rewrite H; now left).
        apply filter_In in Hin. tauto. }
      destruct Hx as [-> | Hx]; [now rewrite same_key_self in E|].
      destruct Hy as [-> | Hy]; [now rewrite same_key_self in E|].
      pose proof (sorted_head_le y x l2 S2 Hx) as Hle1.
      pose proof (sorted_head_le x y l1 S1 Hy) as Hle2.
      unfold same_key in E. apply Qeq_bool_neq in E. apply E.
      now apply Qle_antisym. }
    pose proof (Hf (key x)) as Hhead. cbn [filter] in Hhead.
    rewrite same_key_self, Hxy in Hhead. injection Hhead as <- _.
    f_equal. apply IH.
    + now inversion S1.
    + now inversion S2.
    + intros k. specialize (Hf k). cbn [filter] in Hf.
      destruct (same_key key k x); [now injection Hf | exact Hf].
Qed.

(** [sort_by_key] is the stable ascending sort: whatever list a sort returns,
    if it is sorted by key and keeps the elements of every key in their
    order, it is the list [sort_by_key] computes. *)
Lemma stable_sort_is_sort_by_key (l sorted : list A) :
  Sorted Qle (map key sorted) ->
  (forall k, filter (same_key key k) sorted = filter (same_key key k) l) ->
  sorted = sort_by_key key l.
Proof.
  intros Hs Hst. apply stable_sorted_unique.
  - exact Hs.
  - apply sort_by_key_sorted.
  - intros k. now rewrite Hst, sort_by_key_stable.
Qed.
End SortFacts.

(** Sorting 2, 1 by value: the only sorted and stable answer is 1, 2. *)
Lemma stable_sort_is_sort_by_key_witness :
  [1; 2] = sort_by_key (fun q : Q => q) [2; 1].
Proof.
  apply (stable_sort_is_sort_by_key (fun q : Q => q) [2; 1] [1; 2]).
  - repeat constructor; apply Qle_bool_iff; reflexivity.
  - intros k. cbn [filter]. unfold same_key.
    destruct (Qeq_bool 1 k) eqn:E1, (Qeq_bool 2 k) eqn:E2; try reflexivity.
    apply Qeq_bool_iff in E1, E2. rewrite <- E2 in E1.
    vm_compute in E1. discriminate.
Defined.

(** ** In-place update of a list *)

Lemma update_length {A : Type} (l : list A) (i : nat) (f : A -> A) :
  length (update l i f) = length l.
Proof.
  revert i. induction l as [|x l IH]; intros [|i]; simpl; auto.
Qed.

Lemma nth_update_same {A : Type} (l : list A) (i : nat) (f : A -> A) (d : A) :
  (i < length l)%nat -> nth i (update l i f) d = f (nth i l d).
Proof.
  revert i. induction l as [|x l IH]; intros [|i]; simpl; intros Hi;
    try lia; auto. apply IH. lia.
Qed.

Lemma nth_update_other {A : Type} (l : list A) (i j : nat) (f : A -> A) (d : A) :
  i <> j -> nth j (update l i f) d = nth j l d.
Proof.
  revert i j. induction l as [|x l IH]; intros [|i] [|j]; simpl; intros Hij;
    try congruence; auto.
Qed.

(** ** Tracks: placing and moving *)

Lemma add_clip_video (h : Heap) (p : Project.t) (clip : ref) :
  Project.add_clip h p clip "video" =
  Project.mk (Project.media p)
    (sort_by_key (Project.start_key h) (Project.video_clips p ++ [clip]))
    (Project.audio_clips p) (Project.workspace_dir p) (Project.export_dir p).
Proof. reflexivity. Qed.

Lemma add_clip_other (h : Heap) (p : Project.t) (clip : ref) (track : string) :
  track <> "video" ->
  Project.add_clip h p clip track =
  Project.mk (Project.media p) (Project.video_clips p)
    (sort_by_key (Project.start_key h) (Project.audio_clips p ++ [clip]))
    (Project.workspace_dir p) (Project.export_dir p).
Proof.
  intros Ht. unfold Project.add_clip.
  destruct (String.eqb_spec track "video"); [contradiction | reflexivity].
Qed.

(** Placing: after [add_clip] the named track is sorted by start time, holds
    the old clips and the new one, and clips with equal start times keep the
    order they had in the track with the new clip at the end. *)
Lemma add_clip_sorts_track (h : Heap) (p : Project.t) (clip : ref) (track : string) :
  let old := track_named p track in
  let new := track_named (Project.add_clip h p clip track) track in
  track_sorted h new /\
  Permutation new (old ++ [clip]) /\
  forall k, filter (same_key (Project.start_key h) k) new
            = filter (same_key (Project.start_key h) k) (old ++ [clip]).
Proof.
  unfold track_named, track_sorted, Project.add_clip.
  destruct (String.eqb track "video"); simpl;
    (split; [apply sort_by_key_sorted
            | split; [apply sort_by_key_perm | intros k; apply sort_by_key_stable]]).
Qed.

Lemma py_max_0 (b : Q) : py_max 0 b == Qmax 0 b.
Proof.
  unfold py_max. destruct (Qltb 0 b) eqn:E.
  - apply Qltb_lt in E. symmetry. apply Q.max_r. now apply Qlt_le_weak.
  - apply Qltb_ge in E. symmetry. now apply Q.max_l.
Qed.

(** Placing by a drop: for a media id of the catalogue, [dropEvent] allocates
    one clip with in point 0, out point the probed duration and start time
    [max(0, x / pixels_per_second)], and adds it to the track the drop
    position names, which is sorted afterwards. When the probe raises (the
    availability check failing with another error than [FileNotFoundError]),
    that error leaves the handler. *)
Lemma dropEvent_places_clip (env : ProbeEnv) (app : App) (data : string)
    (x y : Q) (m : MediaItem.t) :
  data <> "" ->
  Dict.get (Project.media (project app)) data = Some m ->
  let clip := length (heap app) in
  let track := if Qltb y audio_y then "video" else "audio" in
  match probed (get_media_duration env (duration_cache app) (MediaItem.path m)) with
  | inr duration =>
      exists app',
        fst (dropEvent env app data x y) = inr app' /\
        heap app'
        = heap app ++ [Clip.mk data 0 duration (py_max 0 (x / pixels_per_second))] /\
        project app' = Project.add_clip (heap app') (project app) clip track /\
        track_sorted (heap app') (track_named (project app') track) /\
        Permutation (track_named (project app') track)
                    (track_named (project app) track ++ [clip]) /\
        Clip.start_time (deref (heap app') clip) == Qmax 0 (x / pixels_per_second)
  | inl e => fst (dropEvent env app data x y) = inl e
  end.
Proof.
  intros Hdata Hget. cbv zeta. unfold dropEvent, probed.
  destruct (String.eqb_spec data ""); [contradiction|]. rewrite Hget.
  destruct (get_media_duration env (duration_cache app) (MediaItem.path m))
    as [[[e|duration] cache'] ev]; cbn [fst snd]; [reflexivity|].
  cbn [alloc fst snd]. eexists. split; [reflexivity|].
  cbn [heap project].
  repeat match goal with |- _ /\ _ => split end.
  - reflexivity.
  - reflexivity.
  - unfold track_sorted, track_named, Project.add_clip.
    destruct (Qltb y audio_y); cbn; apply sort_by_key_sorted.
  - unfold track_named, Project.add_clip.
    destruct (Qltb y audio_y); cbn; apply sort_by_key_perm.
  - unfold deref. rewrite nth_middle. cbn. apply py_max_0.
Qed.

(** The first drop of the session [app_two_clips]. *)
Lemma dropEvent_places_clip_witness :
  exists app',
    fst (dropEvent probe3 app_start "m1" 100 10) = inr app' /\
    Clip.start_time (deref (heap app') 0%nat) == Qmax 0 (100 / pixels_per_second).
Proof.
  destruct (dropEvent_places_clip probe3 app_start "m1" 100 10 clip_media)
    as (app' & Hd & _ & _ & _ & _ & Hs).
  - discriminate.
  - reflexivity.
  - exists app'. split; [exact Hd | exact Hs].
Defined.

(** Clips dropped at 5 s, 1 s and 3 s are read back at 1 s, 3 s and 5 s. *)
Example place_5_1_3 :
  Forall2 Qeq
    (map Clip.start_time
       (clips_of (heap app_5_1_3) (Project.video_clips (project app_5_1_3))))
    [1; 3; 5].
Proof. repeat constructor; vm_compute; reflexivity. Qed.

(** Of two clips dropped at 2 s, the one dropped first stays first. *)
Example place_same_start :
  map Clip.media_id
    (clips_of (heap app_same_start) (Project.video_clips (project app_same_start)))
  = ["m1"; "m1"; "m3"] /\
  Project.video_clips (project app_same_start) = [2; 0; 1]%nat.
Proof. split; reflexivity. Qed.

(** C10. [add_clip] is total over track labels: the clip goes to the video
    track exactly when the label is ["video"], and to the audio track for
    every other string; the other track, the catalogue and the directories
    are untouched, and no label is refused. *)
Theorem add_clip_total_over_labels
    (h : Heap) (p : Project.t) (clip : ref) (track : string) :
  let p' := Project.add_clip h p clip track in
  (track = "video" ->
     Project.video_clips p'
       = sort_by_key (Project.start_key h) (Project.video_clips p ++ [clip]) /\
     Permutation (Project.video_clips p') (Project.video_clips p ++ [clip]) /\
     Project.audio_clips p' = Project.audio_clips p) /\
  (track <> "video" ->
     Project.audio_clips p'
       = sort_by_key (Project.start_key h) (Project.audio_clips p ++ [clip]) /\
     Permutation (Project.audio_clips p') (Project.audio_clips p ++ [clip]) /\
     Project.video_clips p' = Project.video_clips p) /\
  Project.media p' = Project.media p /\
  Project.workspace_dir p' = Project.workspace_dir p /\
  Project.export_dir p' = Project.export_dir p.
Proof.
  cbv zeta. split; [|split].
  - intros ->. rewrite add_clip_video. simpl.
    split; [reflexivity | split; [apply sort_by_key_perm | reflexivity]].
  - intros Ht. rewrite (add_clip_other h p clip track Ht). simpl.
    split; [reflexivity | split; [apply sort_by_key_perm | reflexivity]].
  - unfold Project.add_clip. destruct (String.eqb track "video"); simpl; auto.
Qed.

Lemma not_sorted_pair (a b : Q) :
  Qle_bool a b = false -> ~ Sorted Qle [a; b].
Proof.
  intros E Hs. inversion Hs as [|? ? _ Hd]; subst.
  inversion Hd as [|? ? Hle]; subst.
  apply Qle_bool_iff in Hle. congruence.
Qed.

Lemma mouseReleaseEvent_project (app : App) :
  project (mouseReleaseEvent app) = project app.
Proof.
  unfold mouseReleaseEvent.
  now destruct (release_items (heap app) (graphics_to_clip app)).
Qed.

(** C3, as the code has it.  The tracks are sorted by [add_clip] only.
    [Project.from_dict] appends the clips in the order of the document and
    [mouseReleaseEvent] leaves both track lists as they are, for every state
    of the timeline: nothing re-sorts a track after a load or a move.  So
    File > Open on a project file whose video track lists a clip at 5 s
    before a clip at 3 s gives an unsorted video track, and it is still
    unsorted after the mouse button is released over the timeline. *)
Theorem move_leaves_track_unsorted :
  (forall app, project (mouseReleaseEvent app) = project app) /\
  exists opened,
    open_unsorted = inr opened /\
    let app := MainWindow.timeline opened in
    let app' := mouseReleaseEvent app in
    Forall2 Qeq
      (map (Project.start_key (heap app)) (Project.video_clips (project app)))
      [5; 3] /\
    ~ track_sorted (heap app) (Project.video_clips (project app)) /\
    Forall2 Qeq
      (map (Project.start_key (heap app')) (Project.video_clips (project app')))
      [5; 3] /\
    ~ track_sorted (heap app') (Project.video_clips (project app')).
Proof.
  split; [exact mouseReleaseEvent_project|].
  eexists. split; [reflexivity|]. cbv zeta.
  split; [|split; [|split]].
  - repeat constructor; vm_compute; reflexivity.
  - unfold track_sorted. apply not_sorted_pair. vm_compute. reflexivity.
  - repeat constructor; vm_compute; reflexivity.
  - unfold track_sorted. apply not_sorted_pair. vm_compute. reflexivity.
Qed.

Lemma release_item_heap (h : Heap) (rect : Rect) (clip : ref) :
  fst (release_item h (rect, clip))
  = update h clip (fun c => Clip.set_start_time c (released_start (rect_x rect))).
Proof.
  unfold release_item, released_start.
  destruct (Qltb (rect_x rect / pixels_per_second) 0); reflexivity.
Qed.

Lemma release_item_ref (h : Heap) (item : Rect * ref) :
  snd (snd (release_item h item)) = snd item.
Proof.
  destruct item as [rect clip]. unfold release_item.
  destruct (Qltb (rect_x rect / pixels_per_second) 0); reflexivity.
Qed.

Lemma release_items_heap_cons (h : Heap) (rect : Rect) (clip : ref)
    (rest : list (Rect * ref)) :
  fst (release_items h ((rect, clip) :: rest))
  = fst (release_items
           (update h clip
              (fun c => Clip.set_start_time c (released_start (rect_x rect))))
           rest).
Proof.
  rewrite <- release_item_heap. cbn [release_items].
  destruct (release_item h (rect, clip)) as [h1 item']. cbn [fst].
  destruct (release_items h1 rest) as [h2 rest']. reflexivity.
Qed.

Lemma release_items_length (items : list (Rect * ref)) (h : Heap) :
  length (fst (release_items h items)) = length h.
Proof.
  revert h. induction items as [|[rect clip] items IH]; intros h; [reflexivity|].
  rewrite release_items_heap_cons, IH. apply update_length.
Qed.

(** A clip no item stands for is not touched. *)
Lemma release_items_other (items : list (Rect * ref)) (h : Heap) (r : ref) :
  ~ In r (map snd items) ->
  deref (fst (release_items h items)) r = deref h r.
Proof.
  revert h. induction items as [|[rect clip] items IH]; intros h Hnot; [reflexivity|].
  simpl in Hnot. rewrite release_items_heap_cons, IH by tauto.
  unfold deref. apply nth_update_other. intros ->. tauto.
Qed.

(** The clip of an item takes the item's start time and keeps the rest. *)
Lemma release_items_clip (items : list (Rect * ref)) (h : Heap)
    (rect : Rect) (clip : ref) :
  NoDup (map snd items) ->
  In (rect, clip) items ->
  (clip < length h)%nat ->
  deref (fst (release_items h items)) clip
  = Clip.set_start_time (deref h clip) (released_start (rect_x rect)).
Proof.
  revert h. induction items as [|[rect0 clip0] items IH]; intros h Hnd Hin Hlt.
  - contradiction.
  - simpl in Hnd. inversion Hnd as [|? ? Hnotin Hnd']; subst.
    rewrite release_items_heap_cons.
    destruct Hin as [Heq | Hin].
    + inversion Heq; subst.
      rewrite release_items_other by exact Hnotin.
      unfold deref. rewrite nth_update_same by exact Hlt. reflexivity.
    + assert (Hne : clip0 <> clip).
      { intros ->. apply Hnotin. apply (in_map snd) in Hin. exact Hin. }
      rewrite IH; [| exact Hnd' | exact Hin | now rewrite update_length].
      unfold deref. now rewrite nth_update_other.
Qed.

Lemma released_start_max (x t : Q) :
  x / pixels_per_second == t -> released_start x == Qmax 0 t.
Proof.
  intros Ht. unfold released_start.
  destruct (Qltb (x / pixels_per_second) 0) eqn:E.
  - apply Qltb_lt in E. rewrite Ht in E.
    symmetry. apply Q.max_l. now apply Qlt_le_weak.
  - apply Qltb_ge in E. rewrite Ht in *.
    symmetry. now apply Q.max_r.
Qed.

Lemma _draw_clip_spec (h : Heap) (p : Project.t) (items : list (Rect * ref))
    (clip : ref) (track : string) :
  _draw_clip h p items clip track
  = items ++ (if clip_resolves h p clip
              then [(drawn_rect (deref h clip) track, clip)] else []).
Proof.
  unfold _draw_clip, clip_resolves, Dict.mem. cbv zeta.
  destruct (Dict.get (Project.media p) (Clip.media_id (deref h clip)));
    [reflexivity | now rewrite app_nil_r].
Qed.

Lemma draw_clips_spec (h : Heap) (p : Project.t) (track : string)
    (clips : list ref) :
  forall items,
    draw_clips h p items clips track
    = items ++ map (fun r => (drawn_rect (deref h r) track, r))
                   (filter (clip_resolves h p) clips).
Proof.
  induction clips as [|r clips IH]; intros items; cbn [draw_clips filter].
  - now rewrite app_nil_r.
  - rewrite IH, _draw_clip_spec.
    destruct (clip_resolves h p r); cbn [map].
    + now rewrite <- app_assoc.
    + now rewrite app_nil_r.
Qed.

Lemma release_items_rects (items : list (Rect * ref)) :
  forall h,
    snd (release_items h items)
    = map (fun it =>
             (if Qltb (rect_x (fst it) / pixels_per_second) 0
              then {| rect_x := 0; rect_y := rect_y (fst it);
                      rect_width := rect_width (fst it);
                      rect_height := rect_height (fst it) |}
              else fst it, snd it))
          items.
Proof.
  induction items as [|[rect clip] items IH]; intros h; [reflexivity|].
  cbn [release_items map fst snd]. unfold release_item at 1.
  destruct (Qltb (rect_x rect / pixels_per_second) 0);
    match goal with
    | |- context [release_items ?h1 items] =>
        specialize (IH h1); destruct (release_items h1 items) as [h2 rest']
    end; cbn [snd] in *; now rewrite IH.
Qed.

Lemma released_start_drawn (x s : Q) :
  x == s * pixels_per_second -> released_start x == Qmax 0 s.
Proof.
  intros Hx. apply released_start_max. rewrite Hx.
  unfold pixels_per_second. field.
Qed.

Lemma released_start_edge (x : Q) :
  (if Qltb (x / pixels_per_second) 0 then 0 else x)
  == released_start x * pixels_per_second.
Proof.
  unfold released_start.
  destruct (Qltb (x / pixels_per_second) 0).
  - now rewrite Qmult_0_l.
  - unfold pixels_per_second. field.
Qed.

(** C7, as the code has it.  [mouseReleaseEvent] takes the new start time of
    a clip from [item.rect().x()], and the rectangle of an item is the one
    it was drawn with (or the one a release left): where the item was
    dragged to is not read.  So on a timeline whose items are as drawn, with
    one item per clip, a release stores [max(0, s)] for a clip that starts
    at [s]: a clip with a start time of 0 or more keeps it, whatever the
    move, and a negative start time becomes 0.  In point, out point and
    media id are kept.  Timelines of this shape are what [refresh],
    [dropEvent] and [mouseReleaseEvent] leave (the last two on a timeline
    of this shape). *)
Theorem release_stores_drawn_start
    (app : App) (rect : Rect) (clip : ref) :
  session_ok app ->
  items_as_drawn app ->
  In (rect, clip) (graphics_to_clip app) ->
  let c := deref (heap app) clip in
  let c' := deref (heap (mouseReleaseEvent app)) clip in
  (Clip.start_time c' == Qmax 0 (Clip.start_time c) /\
   (0 <= Clip.start_time c -> Clip.start_time c' == Clip.start_time c) /\
   (Clip.start_time c < 0 -> Clip.start_time c' = 0) /\
   Clip.in_point c' = Clip.in_point c /\
   Clip.out_point c' = Clip.out_point c /\
   Clip.media_id c' = Clip.media_id c) /\
  items_as_drawn (mouseReleaseEvent app) /\
  items_as_drawn (refresh app) /\
  (forall env data x y app',
      fst (dropEvent env app data x y) = inr app' -> items_as_drawn app').
Proof.
  intros (Hnd & Hlt & Hind & Hin) Hdrawn Hitem. cbv zeta.
  assert (Halloc : forall it, In it (graphics_to_clip app) ->
                              (snd it < length (heap app))%nat).
  { intros it Hit. rewrite Forall_forall in Hin, Hlt. apply Hlt, Hin, Hit. }
  assert (Hclip : forall rect0 clip0,
             In (rect0, clip0) (graphics_to_clip app) ->
             deref (heap (mouseReleaseEvent app)) clip0
             = Clip.set_start_time (deref (heap app) clip0)
                 (released_start (rect_x rect0))).
  { intros rect0 clip0 Hit. unfold mouseReleaseEvent.
    pose proof (release_items_clip (graphics_to_clip app) (heap app) rect0 clip0
                  Hind Hit (Halloc _ Hit)) as H.
    destruct (release_items (heap app) (graphics_to_clip app)) as [h' items'].
    exact H. }
  split; [|split; [|split]].
  - rewrite (Hclip rect clip Hitem). cbn.
    assert (Hx : rect_x rect
                 == Clip.start_time (deref (heap app) clip) * pixels_per_second).
    { unfold items_as_drawn in Hdrawn. rewrite Forall_forall in Hdrawn.
      exact (Hdrawn _ Hitem). }
    pose proof (released_start_drawn _ _ Hx) as Hmax.
    split; [exact Hmax|]. split; [|split; [|auto]].
    + intros Hpos. rewrite Hmax. now apply Q.max_r.
    + intros Hneg. unfold released_start.
      destruct (Qltb (rect_x rect / pixels_per_second) 0) eqn:E; [reflexivity|].
      apply Qltb_ge in E. exfalso. apply (Qlt_not_le _ _ Hneg).
      assert (Hs : rect_x rect / pixels_per_second
                   == Clip.start_time (deref (heap app) clip))
        by (rewrite Hx; unfold pixels_per_second; field).
      now rewrite <- Hs.
  - unfold items_as_drawn. rewrite Forall_forall. intros it' Hit'.
    assert (Hitems : graphics_to_clip (mouseReleaseEvent app)
                     = snd (release_items (heap app) (graphics_to_clip app))).
    { unfold mouseReleaseEvent.
      now destruct (release_items (heap app) (graphics_to_clip app)). }
    rewrite Hitems, release_items_rects in Hit'.
    apply in_map_iff in Hit' as ([rect0 clip0] & <- & Hit0). cbn [fst snd].
    rewrite (Hclip rect0 clip0 Hit0). cbn [Clip.set_start_time Clip.start_time].
    rewrite <- released_start_edge.
    now destruct (Qltb (rect_x rect0 / pixels_per_second) 0).
  - unfold items_as_drawn, refresh, _draw_tracks.
    cbn [graphics_to_clip heap]. rewrite !draw_clips_spec. cbn [List.app].
    rewrite Forall_forall. intros it Hit.
    apply in_app_or in Hit as [Hit | Hit];
      apply in_map_iff in Hit as (r & <- & _); reflexivity.
  - intros env data x y app'. unfold dropEvent.
    destruct (String.eqb data ""); [now intros [= <-]|].
    destruct (Dict.get (Project.media (project app)) data) as [m|];
      [|now intros [= <-]].
    destruct (get_media_duration env (duration_cache app) (MediaItem.path m))
      as [[[e|duration] cache'] ev]; cbn [fst]; [discriminate|].
    cbn [alloc fst]. intros [= <-].
    unfold items_as_drawn. cbn [heap graphics_to_clip].
    rewrite _draw_clip_spec. apply Forall_app. split.
    + unfold items_as_drawn in Hdrawn. rewrite Forall_forall in *.
      intros it Hit. unfold deref. rewrite app_nth1 by (apply Halloc, Hit).
      apply (Hdrawn it Hit).
    + destruct (clip_resolves _ _ _); constructor; [|constructor].
      reflexivity.
Qed.

(** A clip placed at 1 s: wherever its item is dragged, to 2.5 s before the
    origin say, the release leaves it at 1 s, not at 0. *)
Lemma release_stores_drawn_start_witness :
  Clip.start_time (deref (heap app_one_clip) 0%nat) == 1 /\
  Clip.start_time (deref (heap (mouseReleaseEvent app_one_clip)) 0%nat) == 1 /\
  ~ Clip.start_time (deref (heap (mouseReleaseEvent app_one_clip)) 0%nat)
    == Qmax 0 (-2.5).
Proof.
  assert (Hok : session_ok app_one_clip).
  { repeat split.
    - repeat constructor. intros [].
    - repeat constructor.
    - repeat constructor. intros [].
    - repeat constructor. }
  assert (Hdrawn : items_as_drawn app_one_clip)
    by (repeat constructor).
  destruct (release_stores_drawn_start app_one_clip _ 0%nat Hok Hdrawn
              (or_introl eq_refl))
    as ((_ & Hkeep & _) & _).
  assert (H1 : Clip.start_time (deref (heap app_one_clip) 0%nat) == 1)
    by (vm_compute; reflexivity).
  split; [exact H1|].
  assert (H2 : Clip.start_time
                 (deref (heap (mouseReleaseEvent app_one_clip)) 0%nat) == 1).
  { rewrite Hkeep; [exact H1|]. rewrite H1. discriminate. }
  split; [exact H2|]. rewrite H2. discriminate.
Defined.

(** ** The duration probe *)

Lemma dict_get_set_same {V : Type} (d : Dict.t V) (k : string) (v : V) :
  Dict.get (Dict.set d k v) k = Some v.
Proof.
  induction d as [|[k' v'] d IH]; simpl.
  - now rewrite String.eqb_refl.
  - destruct (String.eqb k' k) eqn:E; simpl; rewrite E; auto.
Qed.



(** The spec's example: a path whose probe fails is given 10.0, and asking
    again does not probe again. *)
Example probe_failure_gives_10 :
  let first := get_media_duration failing_probe Dict.empty "/media/broken.mp4" in
  probed first = inr 10 /\
  programs_run first = [FfprobeVersion; FfprobeDuration "/media/broken.mp4"] /\
  get_media_duration failing_probe (cache_after first) "/media/broken.mp4"
  = (inr 10, [("/media/broken.mp4", 10)], [FfprobeVersion]).
Proof. repeat split. Qed.

(** ** The export runs its plan *)

Lemma exec_app (engine : Engine) (s1 s2 : list Step) (w : World) :
  exec engine (s1 ++ s2) w
  = match exec engine s1 w with
    | (inr _, w') => exec engine s2 w'
    | (inl e, w') => (inl e, w')
    end.
Proof.
  revert w. induction s1 as [|s s1 IH]; intros w; [reflexivity|].
  destruct s as [c | path lines | e]; cbn [app exec]; unfold bind.
  - destruct (subprocess_run_check engine c w) as [[e|[]] w1]; [reflexivity|].
    apply IH.
  - destruct (write_lines path lines w) as [[e|[]] w1]; [reflexivity|].
    apply IH.
  - reflexivity.
Qed.

Lemma video_files_cons (temp_dir : string) (idx n : nat) :
  video_files temp_dir idx (S n)
  = video_file temp_dir idx :: video_files temp_dir (S idx) n.
Proof. reflexivity. Qed.

Lemma audio_files_cons (temp_dir : string) (idx n : nat) :
  audio_files temp_dir idx (S n)
  = audio_file temp_dir idx :: audio_files temp_dir (S idx) n.
Proof. reflexivity. Qed.

Section LoopsAsPlans.
Variable engine : Engine.
Variable h : Heap.
Variable media : Dict.t MediaItem.t.
Variable temp_dir : string.

Lemma trim_video_clips_exec (clips : list ref) :
  forall (idx : nat) (acc : list string) (w : World),
    trim_video_clips engine h media temp_dir idx clips acc w
    = match exec engine (video_steps h media temp_dir idx clips) w with
      | (inr _, w') => (inr (acc ++ video_files temp_dir idx (length clips)), w')
      | (inl e, w') => (inl e, w')
      end.
Proof.
  induction clips as [|clip rest IH]; intros idx acc w.
  - cbn. unfold ret. now rewrite app_nil_r.
  - cbn [trim_video_clips video_steps length]. unfold bind at 1. unfold lift.
    destruct (Dict.item media (Clip.media_id (deref h clip))) as [e|m];
      [reflexivity|].
    cbn [exec]. unfold bind. fold (video_file temp_dir idx).
    destruct (subprocess_run_check engine _ w) as [[e|[]] w1]; [reflexivity|].
    rewrite IH, video_files_cons, <- app_assoc. reflexivity.
Qed.

Lemma trim_audio_clips_exec (clips : list ref) :
  forall (idx : nat) (acc : list (string * Q)) (w : World),
    trim_audio_clips engine h media temp_dir idx clips acc w
    = match exec engine (audio_steps h media temp_dir idx clips) w with
      | (inr _, w') => (inr (acc ++ audio_entries h temp_dir idx clips), w')
      | (inl e, w') => (inl e, w')
      end.
Proof.
  induction clips as [|clip rest IH]; intros idx acc w.
  - cbn. unfold ret. now rewrite app_nil_r.
  - cbn [trim_audio_clips audio_steps length]. unfold bind at 1. unfold lift.
    destruct (Dict.item media (Clip.media_id (deref h clip))) as [e|m];
      [reflexivity|].
    cbn [exec]. unfold bind. fold (audio_file temp_dir idx).
    destruct (subprocess_run_check engine _ w) as [[e|[]] w1]; [reflexivity|].
    rewrite IH, <- app_assoc. reflexivity.
Qed.

Lemma build_filter_spec (clips : list ref) :
  forall (idx : nat) (input_cmds : list string) (filter_parts : list FilterPart),
    build_filter idx (audio_entries h temp_dir idx clips) input_cmds filter_parts
    = (input_cmds ++ audio_files temp_dir idx (length clips),
       filter_parts ++ adelays h idx clips).
Proof.
  induction clips as [|clip rest IH]; intros idx ins parts.
  - cbn. now rewrite !app_nil_r.
  - unfold audio_entries. cbn [length map]. rewrite audio_files_cons.
    cbn [combine build_filter]. fold (audio_entries h temp_dir (S idx) rest).
    rewrite IH, <- !app_assoc. reflexivity.
Qed.

Lemma audio_entries_length (idx : nat) (clips : list ref) :
  length (audio_entries h temp_dir idx clips) = length clips.
Proof.
  unfold audio_entries, audio_files.
  rewrite length_combine, !length_map, length_seq. apply Nat.min_id.
Qed.
End LoopsAsPlans.

(** [_export_with_ffmpeg] runs the commands of [plan], in order, and stops
    where [exec] stops. *)
Lemma export_is_exec (engine : Engine) (h : Heap) (p : Project.t)
    (output_path : string) (w : World) :
  _export_with_ffmpeg engine h p output_path w
  = exec engine (plan h p output_path) w.
Proof.
  unfold _export_with_ffmpeg, plan. cbv zeta.
  set (temp_dir := path_join (Project.workspace_dir p) "export_tmp").
  unfold bind at 1. rewrite trim_video_clips_exec, exec_app.
  destruct (exec engine (video_steps h (Project.media p) temp_dir 0
                           (Project.video_clips p)) w) as [[e|[]] w1];
    [reflexivity|].
  cbn [app exec]. unfold bind.
  fold concat_line.
  destruct (write_lines _ _ w1) as [[e|[]] w2]; [reflexivity|].
  destruct (subprocess_run_check engine _ w2) as [[e|[]] w3]; [reflexivity|].
  cbn [ret].
  destruct (Project.audio_clips p) as [|a rest] eqn:Ha.
  - cbn [exec]. unfold bind.
    destruct (subprocess_run_check engine _ w3) as [[e|[]] w4]; reflexivity.
  - rewrite <- Ha. rewrite trim_audio_clips_exec, exec_app.
    destruct (exec engine (audio_steps h (Project.media p) temp_dir 0
                             (Project.audio_clips p)) w3) as [[e|[]] w4];
      [reflexivity|].
    cbn [app]. rewrite build_filter_spec, audio_entries_length.
    cbn [app exec]. unfold bind.
    destruct (subprocess_run_check engine _ w4) as [[e|[]] w5]; reflexivity.
Qed.

(** ** Running a plan *)

(** With an engine that carries out every request, a plan without a failed
    lookup runs to its end and the trace lists its steps. *)
Lemma exec_all_ok (engine : Engine) (steps : list Step) :
  engine_accepts_all engine ->
  existsb raises steps = false ->
  forall w, exists w',
    exec engine steps w = (inr tt, w') /\
    trace w' = trace w ++ flat_map event_of steps.
Proof.
  intros Hok. induction steps as [|s steps IH]; intros Hnr w.
  - exists w. cbn. now rewrite app_nil_r.
  - cbn [existsb] in Hnr. apply orb_false_iff in Hnr as [Hs Hrest].
    destruct s as [c | path lines | e]; [| |discriminate].
    + cbn [exec]. unfold bind, subprocess_run_check.
      pose proof (Hok c (files w)) as Hc.
      destruct (engine c (files w)) as [ok fs']. cbn in Hc. subst ok.
      destruct (IH Hrest {| files := fs'; trace := trace w ++ [Ffmpeg c true] |})
        as (w' & Hrun & Htr).
      exists w'. split; [exact Hrun|].
      rewrite Htr. cbn. now rewrite <- app_assoc.
    + cbn [exec]. unfold bind, write_lines.
      destruct (IH Hrest {| files := fs_write (files w) path (TextLines lines);
                            trace := trace w ++ [WriteLines path lines] |})
        as (w' & Hrun & Htr).
      exists w'. split; [exact Hrun|].
      rewrite Htr. cbn. now rewrite <- app_assoc.
Qed.

(** When every clip of a track resolves, its part of the plan is one trim per
    clip, in track order, writing [v_000.mp4], [v_001.mp4], ... *)
Lemma video_steps_resolved (h : Heap) (media : Dict.t MediaItem.t)
    (temp_dir : string) (clips : list ref) :
  track_resolves h media clips ->
  forall idx, exists trims,
    video_steps h media temp_dir idx clips = map DoRun trims /\
    Forall2 (trims_video h media) clips trims /\
    map cmd_out trims = video_files temp_dir idx (length clips).
Proof.
  induction 1 as [|r clips Hr _ IH]; intros idx.
  - exists []. repeat split. constructor.
  - destruct (IH (S idx)) as (trims & Hsteps & Hall & Houts).
    unfold Dict.mem in Hr. cbn [video_steps]. unfold Dict.item.
    destruct (Dict.get media (Clip.media_id (deref h r))) as [m|] eqn:Hm;
      [|discriminate].
    eexists (_ :: trims). split; [|split].
    + cbn [map]. rewrite Hsteps. reflexivity.
    + constructor; [|exact Hall]. exists m, (video_file temp_dir idx). auto.
    + cbn [map cmd_out length]. rewrite Houts. reflexivity.
Qed.

Lemma audio_steps_resolved (h : Heap) (media : Dict.t MediaItem.t)
    (temp_dir : string) (clips : list ref) :
  track_resolves h media clips ->
  forall idx, exists trims,
    audio_steps h media temp_dir idx clips = map DoRun trims /\
    Forall2 (trims_audio h media) clips trims /\
    map cmd_out trims = audio_files temp_dir idx (length clips).
Proof.
  induction 1 as [|r clips Hr _ IH]; intros idx.
  - exists []. repeat split. constructor.
  - destruct (IH (S idx)) as (trims & Hsteps & Hall & Houts).
    unfold Dict.mem in Hr. cbn [audio_steps]. unfold Dict.item.
    destruct (Dict.get media (Clip.media_id (deref h r))) as [m|] eqn:Hm;
      [|discriminate].
    eexists (_ :: trims). split; [|split].
    + cbn [map]. rewrite Hsteps. reflexivity.
    + constructor; [|exact Hall]. exists m, (audio_file temp_dir idx). auto.
    + cbn [map cmd_out length]. rewrite Houts. reflexivity.
Qed.

Lemma flat_map_event_of_runs (cmds : list Cmd) :
  flat_map event_of (map DoRun cmds) = map (fun c => Ffmpeg c true) cmds.
Proof.
  induction cmds as [|c cmds IH]; [reflexivity|]. cbn. now rewrite IH.
Qed.

Lemma existsb_raises_runs (cmds : list Cmd) :
  existsb raises (map DoRun cmds) = false.
Proof.
  induction cmds as [|c cmds IH]; [reflexivity|]. exact IH.
Qed.





(** ** The plan of an export without audio *)


Lemma accept_all_accepts : engine_accepts_all accept_all.
Proof. intros c fs. reflexivity. Qed.


(** The spec's example, run: two trims, the list of the two trimmed files,
    the concatenation and the encode; 3 + 4 = 7 seconds of source. *)
Example export_two_clips_trace :
  let run := _export_with_ffmpeg accept_all (heap app_video_only)
               (project app_video_only) "/home/u/Videos/out.mp4" empty_world in
  fst run = inr tt /\
  trace (snd run)
  = [ Ffmpeg (TrimVideo 0 "/media/a.mp4" (3 - 0)
                "/home/u/video_editor_workspace/export_tmp/v_000.mp4") true;
      Ffmpeg (TrimVideo 0 "/media/intro.mp4" (4 - 0)
                "/home/u/video_editor_workspace/export_tmp/v_001.mp4") true;
      WriteLines "/home/u/video_editor_workspace/export_tmp/video_list.txt"
        [ "file '/home/u/video_editor_workspace/export_tmp/v_000.mp4'";
          "file '/home/u/video_editor_workspace/export_tmp/v_001.mp4'" ];
      Ffmpeg (Concat "/home/u/video_editor_workspace/export_tmp/video_list.txt"
                "/home/u/video_editor_workspace/export_tmp/video_concat.mp4") true;
      Ffmpeg (Encode "/home/u/video_editor_workspace/export_tmp/video_concat.mp4"
                "/home/u/Videos/out.mp4") true ] /\
  (3 - 0) + (4 - 0) == 7.
Proof. repeat split. Qed.

(** ** The plan of an export with audio *)

Lemma adelays_length (h : Heap) (idx : nat) (clips : list ref) :
  length (adelays h idx clips) = length clips.
Proof.
  unfold adelays. rewrite length_map, length_combine, length_seq.
  apply Nat.min_id.
Qed.

Lemma adelays_cons (h : Heap) (idx : nat) (r : ref) (clips : list ref) :
  adelays h idx (r :: clips)
  = Adelay idx [delay_ms h r; delay_ms h r] idx :: adelays h (S idx) clips.
Proof. reflexivity. Qed.

Lemma adelays_nth (h : Heap) (clips : list ref) :
  forall idx i r,
    nth_error clips i = Some r ->
    nth_error (adelays h idx clips) i
    = Some (Adelay (idx + i) [delay_ms h r; delay_ms h r] (idx + i)).
Proof.
  induction clips as [|r0 clips IH]; intros idx [|i] r Hn; try discriminate.
  - injection Hn as ->. rewrite adelays_cons, Nat.add_0_r. reflexivity.
  - rewrite adelays_cons. cbn [nth_error] in *.
    rewrite (IH (S idx) i r Hn).
    replace (S idx + i)%nat with (idx + S i)%nat by lia. reflexivity.
Qed.

Lemma adelays_delays (h : Heap) (clips : list ref) :
  forall idx,
    graph_delays (adelays h idx clips)
    = map (fun r => [delay_ms h r; delay_ms h r]) clips.
Proof.
  induction clips as [|r clips IH]; intros idx; [reflexivity|].
  rewrite adelays_cons. cbn. f_equal. apply IH.
Qed.

Lemma adelays_inputs (h : Heap) (clips : list ref) :
  forall idx part,
    In part (adelays h idx clips) ->
    exists k, part_input part = Some k /\ (idx <= k < idx + length clips)%nat.
Proof.
  induction clips as [|r clips IH]; intros idx part Hin; [contradiction|].
  rewrite adelays_cons in Hin. destruct Hin as [<- | Hin].
  - exists idx. cbn. split; [reflexivity | lia].
  - destruct (IH (S idx) part Hin) as (k & Hk & Hrange).
    exists k. cbn [length]. split; [exact Hk | lia].
Qed.

Lemma nth_error_map_seq {A : Type} (f : nat -> A) (n : nat) :
  forall idx k, (k < n)%nat -> nth_error (map f (seq idx n)) k = Some (f (idx + k)%nat).
Proof.
  induction n as [|n IH]; intros idx [|k] Hk; try lia.
  - cbn. now rewrite Nat.add_0_r.
  - cbn [seq map nth_error]. rewrite IH by lia. f_equal. f_equal. lia.
Qed.

Lemma graph_delays_app (g1 g2 : list FilterPart) :
  graph_delays (g1 ++ g2) = graph_delays g1 ++ graph_delays g2.
Proof. unfold graph_delays. apply flat_map_app. Qed.

Lemma trims_audio_no_mix (h : Heap) (media : Dict.t MediaItem.t)
    (clips : list ref) (trims : list Cmd) :
  Forall2 (trims_audio h media) clips trims ->
  filter is_audio_mix (map (fun c => Ffmpeg c true) trims) = [].
Proof.
  induction 1 as [|r c clips trims (m & file & _ & ->) _ IH]; [reflexivity|].
  exact IH.
Qed.

(** C5, as the code has it.  Export of a project whose audio track is not
    empty, with an engine that carries out every request and clips that all
    resolve: after the video trims, the concatenation and one trim per audio
    clip, the export ends with a single mix-and-mux request.  Its graph has
    one part per audio clip, carrying [int(start_time * 1000)] milliseconds
    of that clip on the two channels it names, and a last part that mixes
    them with [duration=longest].  But the part of clip [i] reads input [i]
    of the command, and the inputs are the concatenated video (input 0) and
    then the trimmed audio files: the trimmed file of clip [i] is input
    [i + 1].  So the delay of the first audio clip is put on the sound of the
    concatenated video, the trimmed file of clip [i] is delayed by the start
    time of clip [i + 1], and the trimmed file of the last clip is read by no
    part of the graph. *)
Theorem export_audio_mix_delays_shifted
    (engine : Engine) (h : Heap) (p : Project.t) (output_path : string)
    (w : World) :
  engine_accepts_all engine ->
  track_resolves h (Project.media p) (Project.video_clips p) ->
  track_resolves h (Project.media p) (Project.audio_clips p) ->
  Project.audio_clips p <> [] ->
  let temp_dir := path_join (Project.workspace_dir p) "export_tmp" in
  let list_path := path_join temp_dir "video_list.txt" in
  let concat_path := path_join temp_dir "video_concat.mp4" in
  let na := length (Project.audio_clips p) in
  exists (video_trims audio_trims : list Cmd) (graph : list FilterPart)
         (w' : World),
    let mix := MixMux concat_path (map cmd_out audio_trims) graph output_path in
    _export_with_ffmpeg engine h p output_path w = (inr tt, w') /\
    trace w'
      = trace w
        ++ map (fun c => Ffmpeg c true) video_trims
        ++ [ WriteLines list_path (map concat_line (map cmd_out video_trims));
             Ffmpeg (Concat list_path concat_path) true ]
        ++ map (fun c => Ffmpeg c true) audio_trims
        ++ [ Ffmpeg mix true ] /\
    Forall2 (trims_video h (Project.media p)) (Project.video_clips p) video_trims /\
    Forall2 (trims_audio h (Project.media p)) (Project.audio_clips p) audio_trims /\
    map cmd_out audio_trims = audio_files temp_dir 0 na /\
    length graph = S na /\
    nth_error graph na = Some (AmixLongest (seq 0 na) na) /\
    (* the part of clip i: its delay on both channels, read from input i *)
    (forall i r,
        nth_error (Project.audio_clips p) i = Some r ->
        nth_error graph i
        = Some (Adelay i [delay_ms h r; delay_ms h r] i)) /\
    (* input 0 is the concatenated video, input i + 1 the trimmed file of
       clip i *)
    nth_error (ffmpeg_inputs mix) 0 = Some concat_path /\
    (forall i,
        (i < na)%nat ->
        nth_error (ffmpeg_inputs mix) (S i) = Some (audio_file temp_dir i)) /\
    (* so the trimmed file of clip i is delayed by the start of clip i + 1 *)
    (forall i next,
        nth_error (Project.audio_clips p) (S i) = Some next ->
        exists part,
          nth_error graph (S i) = Some part /\
          part_input part = Some (S i) /\
          nth_error (ffmpeg_inputs mix) (S i) = Some (audio_file temp_dir i) /\
          part = Adelay (S i) [delay_ms h next; delay_ms h next] (S i)) /\
    (* and no part reads the trimmed file of the last clip *)
    nth_error (ffmpeg_inputs mix) na = Some (audio_file temp_dir (na - 1)) /\
    (forall part, In part graph -> part_input part <> Some na).
Proof.
  intros Hok Hv Ha Hne. cbv zeta.
  set (temp_dir := path_join (Project.workspace_dir p) "export_tmp").
  set (na := length (Project.audio_clips p)).
  destruct (video_steps_resolved h (Project.media p) temp_dir
              (Project.video_clips p) Hv 0%nat) as (vt & Hvs & Hvall & Hvouts).
  destruct (audio_steps_resolved h (Project.media p) temp_dir
              (Project.audio_clips p) Ha 0%nat) as (at_ & Has & Haall & Haouts).
  set (graph := adelays h 0 (Project.audio_clips p) ++ [AmixLongest (seq 0 na) na]).
  assert (Hplan : plan h p output_path
                  = map DoRun vt
                    ++ [ DoWrite (path_join temp_dir "video_list.txt")
                           (map concat_line (map cmd_out vt));
                         DoRun (Concat (path_join temp_dir "video_list.txt")
                                  (path_join temp_dir "video_concat.mp4")) ]
                    ++ map DoRun at_
                    ++ [ DoRun (MixMux (path_join temp_dir "video_concat.mp4")
                                  (map cmd_out at_) graph output_path) ]).
  { unfold plan. cbv zeta. fold temp_dir. fold na.
    destruct (Project.audio_clips p) as [|a rest] eqn:Haudio; [congruence|].
    rewrite Hvs, Hvouts, Has, Haouts. reflexivity. }
  destruct (exec_all_ok engine (plan h p output_path) Hok) with (w := w)
    as (w' & Hrun & Htr).
  { rewrite Hplan, existsb_app, existsb_raises_runs. cbn [app existsb raises orb].
    rewrite existsb_app, existsb_raises_runs. reflexivity. }
  assert (Hpos : (0 < na)%nat).
  { unfold na. destruct (Project.audio_clips p); [contradiction | cbn; lia]. }
  assert (Hpart : forall i r,
             nth_error (Project.audio_clips p) i = Some r ->
             nth_error graph i = Some (Adelay i [delay_ms h r; delay_ms h r] i)).
  { intros i r Hn. unfold graph.
    rewrite nth_error_app1
      by (rewrite adelays_length; apply nth_error_Some; congruence).
    now rewrite (adelays_nth h _ 0 i r Hn). }
  assert (Hinput : forall i,
             (i < na)%nat ->
             nth_error (map cmd_out at_) i = Some (audio_file temp_dir i)).
  { intros i Hi. rewrite Haouts. unfold audio_files.
    now rewrite nth_error_map_seq. }
  exists vt, at_, graph, w'.
  cbn [ffmpeg_inputs].
  repeat match goal with |- _ /\ _ => split end.
  - now rewrite export_is_exec.
  - rewrite Htr, Hplan, flat_map_app, flat_map_event_of_runs.
    cbn [app flat_map event_of].
    rewrite flat_map_app, flat_map_event_of_runs. reflexivity.
  - exact Hvall.
  - exact Haall.
  - exact Haouts.
  - unfold graph. rewrite length_app, adelays_length. cbn. fold na. lia.
  - unfold graph. rewrite nth_error_app2 by (rewrite adelays_length; fold na; lia).
    rewrite adelays_length. fold na. now rewrite Nat.sub_diag.
  - exact Hpart.
  - reflexivity.
  - intros i Hi. cbn [nth_error]. now apply Hinput.
  - intros i next Hn.
    assert (Hlt : (S i < na)%nat)
      by (apply (proj1 (nth_error_Some (Project.audio_clips p) (S i)));
          rewrite Hn; discriminate).
    eexists. split; [apply (Hpart _ _ Hn)|]. split; [reflexivity|].
    split; [cbn [nth_error]; apply Hinput; lia | reflexivity].
  - destruct na as [|n]; [lia|]. cbn [nth_error].
    replace (S n - 1)%nat with n by lia. apply Hinput. lia.
  - intros part Hin. unfold graph in Hin. apply in_app_or in Hin as [Hin | Hin].
    + apply adelays_inputs in Hin as (k & -> & Hk). fold na in Hk.
      intros [= ->]. lia.
    + destruct Hin as [<- | []]. discriminate.
Qed.

(** The session [app_with_audio], audio clips at 0 s and 2.5 s: the trimmed
    file of the clip at 0 s is input 1, and the part that reads input 1
    delays it by 2500 ms. *)
Lemma export_audio_mix_delays_shifted_witness :
  exists (audio_trims : list Cmd) (graph : list FilterPart) (w' : World),
    _export_with_ffmpeg accept_all (heap app_with_audio) (project app_with_audio)
      "/home/u/Videos/out.mp4" empty_world = (inr tt, w') /\
    Forall2 Qeq
      (map (fun r => Clip.start_time (deref (heap app_with_audio) r))
           (Project.audio_clips (project app_with_audio))) [0; 2.5] /\
    nth_error
      (ffmpeg_inputs
         (MixMux "/home/u/video_editor_workspace/export_tmp/video_concat.mp4"
            (map cmd_out audio_trims) graph "/home/u/Videos/out.mp4")) 1
    = Some "/home/u/video_editor_workspace/export_tmp/a_000.mp3" /\
    nth_error graph 1 = Some (Adelay 1 [2500; 2500]%Z 1).
Proof.
  destruct (export_audio_mix_delays_shifted accept_all (heap app_with_audio)
              (project app_with_audio) "/home/u/Videos/out.mp4" empty_world
              accept_all_accepts)
    as (vt & at_ & graph & w' & Hrun & _ & _ & _ & _ & _ & _ & Hpart
        & _ & Hinput & _).
  - repeat constructor.
  - repeat constructor.
  - discriminate.
  - exists at_, graph, w'. split; [exact Hrun|]. split; [repeat constructor; vm_compute; reflexivity|].
    split.
    + apply (Hinput 0%nat). vm_compute. lia.
    + rewrite (Hpart 1%nat 2%nat eq_refl). reflexivity.
Defined.

(** The same session, run: the final command and the text of its filter
    graph. *)
Example export_audio_mix_trace :
  let tmp := "/home/u/video_editor_workspace/export_tmp/" in
  let run := _export_with_ffmpeg accept_all (heap app_with_audio)
               (project app_with_audio) "/home/u/Videos/out.mp4" empty_world in
  let graph := [ Adelay 0 [0; 0]%Z 0; Adelay 1 [2500; 2500]%Z 1;
                 AmixLongest [0; 1]%nat 2 ] in
  fst run = inr tt /\
  last (trace (snd run)) FfprobeVersion
  = Ffmpeg (MixMux (tmp ++ "video_concat.mp4")%string
              [(tmp ++ "a_000.mp3")%string; (tmp ++ "a_001.mp3")%string] graph
              "/home/u/Videos/out.mp4") true /\
  length (filter is_audio_mix (trace (snd run))) = 1%nat /\
  render_filter graph
  = "[0:a]adelay=0|0[a0];[1:a]adelay=2500|2500[a1];[a0][a1]amix=inputs=2:duration=longest[aout]".
Proof. repeat split. Qed.

(** ** Failure of an export step *)

Lemma prefix_app (a b : string) : prefix a (a ++ b) = true.
Proof.
  induction a as [|c a IH]; [destruct b; reflexivity|].
  cbn. destruct (ascii_dec c c); [exact IH | contradiction].
Qed.

Lemma path_join_prefix (a b : string) :
  prefix "/" b = false -> prefix a (path_join a b) = true.
Proof.
  intros Hb. unfold path_join. rewrite Hb.
  destruct (String.eqb a "" || ends_with a "/"); apply prefix_app.
Qed.

Lemma video_steps_under (h : Heap) (media : Dict.t MediaItem.t)
    (temp_dir : string) (clips : list ref) :
  forall idx, Forall (step_under temp_dir) (video_steps h media temp_dir idx clips).
Proof.
  induction clips as [|r clips IH]; intros idx; [constructor|].
  cbn [video_steps].
  destruct (Dict.item media (Clip.media_id (deref h r))) as [e|m].
  - constructor; [|constructor]. intros path Hp. discriminate.
  - constructor; [|apply IH]. intros path Hp. injection Hp as <-.
    apply path_join_prefix. reflexivity.
Qed.

Lemma audio_steps_under (h : Heap) (media : Dict.t MediaItem.t)
    (temp_dir : string) (clips : list ref) :
  forall idx, Forall (step_under temp_dir) (audio_steps h media temp_dir idx clips).
Proof.
  induction clips as [|r clips IH]; intros idx; [constructor|].
  cbn [audio_steps].
  destruct (Dict.item media (Clip.media_id (deref h r))) as [e|m].
  - constructor; [|constructor]. intros path Hp. discriminate.
  - constructor; [|apply IH]. intros path Hp. injection Hp as <-.
    apply path_join_prefix. reflexivity.
Qed.

(** Everything before the last request stays inside [export_tmp]. *)
Lemma upstream_steps_under (h : Heap) (p : Project.t) :
  Forall (step_under (path_join (Project.workspace_dir p) "export_tmp"))
         (upstream_steps h p).
Proof.
  unfold upstream_steps. cbv zeta.
  apply Forall_app. split; [apply video_steps_under|].
  apply Forall_app. split.
  - repeat constructor; intros path Hp; injection Hp as <-;
      apply path_join_prefix; reflexivity.
  - destruct (Project.audio_clips p); [constructor | apply audio_steps_under].
Qed.

Lemma plan_upstream_final (h : Heap) (p : Project.t) (output_path : string) :
  plan h p output_path
  = upstream_steps h p ++ [DoRun (final_cmd h p output_path)].
Proof.
  unfold plan, upstream_steps, final_cmd. cbv zeta.
  destruct (Project.audio_clips p) as [|a rest].
  - rewrite <- !app_assoc. reflexivity.
  - rewrite <- !app_assoc. reflexivity.
Qed.

Lemma final_cmd_is_final (h : Heap) (p : Project.t) (output_path : string) :
  is_final_mux (final_cmd h p output_path) = true.
Proof.
  unfold final_cmd. cbv zeta. destruct (Project.audio_clips p); reflexivity.
Qed.

Lemma ran_ok_event_of (steps : list Step) :
  forallb ran_ok (flat_map event_of steps) = true.
Proof.
  induction steps as [|[c|path lines|e] steps IH]; cbn; auto.
Qed.


(** What [export_project] does once the two guards and the file dialog are
    passed: it runs [_export_with_ffmpeg] and reports how it ended. *)
Lemma export_project_runs_export (env : ProbeEnv) (engine : Engine) (h : Heap)
    (p : Project.t) (chosen : string) (w : World) :
  fst (ffprobe_installed env) = inr true ->
  Project.video_clips p <> [] ->
  chosen <> "" ->
  let output_path :=
    if ends_with chosen ".mp4" then chosen else (chosen ++ ".mp4")%string in
  let run := _export_with_ffmpeg engine h p output_path
               {| files := files w; trace := trace w ++ [FfprobeVersion] |} in
  export_project env engine h p chosen w
  = (match fst run with
     | inr _ => InformationExportComplete output_path
     | inl e => CriticalExportError e
     end, snd run).
Proof.
  intros Hon Hv Hc. cbv zeta. unfold export_project.
  unfold ffprobe_installed in *. cbn [fst] in Hon. rewrite Hon. cbn [negb].
  destruct (Project.video_clips p) as [|r rest]; [contradiction|].
  destruct (String.eqb_spec chosen ""); [contradiction|].
  destruct (_export_with_ffmpeg engine h p _ _) as [[e|[]] w']; reflexivity.
Qed.








(** The same run, spelled out. *)
Example failed_mux_run :
  let out := "/home/u/Videos/out.mp4" in
  let concat := "/home/u/video_editor_workspace/export_tmp/video_concat.mp4" in
  let run := _export_with_ffmpeg dies_in_final_mux (heap app_video_only)
               (project app_video_only) out empty_world in
  fst run = inl (CalledProcessError "ffmpeg") /\
  files empty_world out = None /\
  files (snd run) out = Some (MediaData false (Encode concat out)) /\
  fst (export_project probe3 dies_in_final_mux (heap app_video_only)
         (project app_video_only) out empty_world)
  = CriticalExportError (CalledProcessError "ffmpeg").
Proof. repeat split. Qed.

(** ** Export of an empty video track *)

(** C6, as the code has it.  With no clip on the video track,
    [export_project] only checks for ffprobe and returns: it issues no
    request to the engine, touches no file, and reports "Nothing to Export"
    when ffprobe is there and "FFmpeg Missing" when it is not.  When the
    check itself fails with an error other than [FileNotFoundError], that
    error leaves [export_project], again with no request and no file
    touched. *)
Theorem export_empty_video_track
    (env : ProbeEnv) (engine : Engine) (h : Heap) (p : Project.t)
    (chosen : string) (w : World) :
  Project.video_clips p = [] ->
  let result := export_project env engine h p chosen w in
  fst result = match fst (ffprobe_installed env) with
               | inr true => InformationNothingToExport
               | inr false => WarningFFmpegMissing
               | inl e => Uncaught e
               end /\
  trace (snd result) = trace w ++ [FfprobeVersion] /\
  filter is_engine_request (trace (snd result))
    = filter is_engine_request (trace w) /\
  files (snd result) = files w.
Proof.
  intros Hv. cbv zeta. unfold export_project, ffprobe_installed. rewrite Hv.
  cbn [fst].
  destruct (ffprobe_version env) as [[]|[]]; cbn;
    rewrite filter_app; cbn; rewrite app_nil_r; auto.
Qed.

(** The project of [app_start] has no clip yet. *)
Lemma export_empty_video_track_witness :
  fst (export_project probe3 accept_all (heap app_start) (project app_start)
         "/home/u/Videos/out.mp4" empty_world) = InformationNothingToExport /\
  trace (snd (export_project probe3 accept_all (heap app_start) (project app_start)
                "/home/u/Videos/out.mp4" empty_world)) = [FfprobeVersion].
Proof.
  destruct (export_empty_video_track probe3 accept_all (heap app_start)
              (project app_start) "/home/u/Videos/out.mp4" empty_world eq_refl)
    as (Hd & Ht & _ & _).
  split; [exact Hd | exact Ht].
Defined.

(** C6 as stated fails on the code: on a machine without ffprobe the export
    of an empty timeline ends with the "FFmpeg Missing" warning, not with the
    empty-timeline report. *)
Lemma empty_timeline_without_ffprobe :
  ~ (forall (env : ProbeEnv) (engine : Engine) (h : Heap) (p : Project.t)
            (chosen : string) (w : World),
        Project.video_clips p = [] ->
        fst (export_project env engine h p chosen w)
          = InformationNothingToExport /\
        filter is_engine_request
          (trace (snd (export_project env engine h p chosen w)))
        = filter is_engine_request (trace w)).
Proof.
  intros Hclaim.
  destruct (Hclaim no_ffprobe accept_all (heap app_start) (project app_start)
              "/home/u/Videos/out.mp4" empty_world eq_refl) as [Hd _].
  vm_compute in Hd. discriminate.
Qed.

(** ** Saving and loading *)

Lemma media_item_round_trip (item : MediaItem.t) :
  MediaItem.from_dict (MediaItem.to_dict item) = inr item.
Proof. destruct item. reflexivity. Qed.

Lemma clip_round_trip (c : Clip.t) : Clip.from_dict (Clip.to_dict c) = inr c.
Proof. destruct c. reflexivity. Qed.

Lemma dict_set_fresh {V : Type} (d : Dict.t V) (k : string) (v : V) :
  ~ In k (Dict.keys d) -> Dict.set d k v = d ++ [(k, v)].
Proof.
  induction d as [|[k' v'] d IH]; intros Hk; [reflexivity|].
  cbn in Hk. cbn [Dict.set].
  destruct (String.eqb_spec k' k); [tauto|].
  cbn. rewrite IH by tauto. reflexivity.
Qed.

(** Loading the saved records of a catalogue keyed by id appends them, in
    order, to a catalogue that has none of their keys. *)
Lemma load_media_saved (m : Dict.t MediaItem.t) :
  forall acc,
    Forall (fun kv => fst kv = MediaItem.id (snd kv)) m ->
    NoDup (Dict.keys acc ++ Dict.keys m) ->
    Project.load_media (map MediaItem.to_dict (Dict.values m)) acc
    = inr (acc ++ m).
Proof.
  induction m as [|[k v] m IH]; intros acc Hid Hnd.
  - cbn. now rewrite app_nil_r.
  - inversion Hid as [|? ? Hk Hid']; subst. cbn in Hk. subst k.
    cbn [Dict.values map snd Project.load_media].
    rewrite media_item_round_trip. cbn [exc_bind].
    rewrite dict_set_fresh.
    + fold (Dict.values m). rewrite IH; [now rewrite <- app_assoc | exact Hid' |].
      unfold Dict.keys in *. rewrite map_app, <- app_assoc. exact Hnd.
    + intros Hin. cbn in Hnd. apply NoDup_remove_2 in Hnd.
      apply Hnd. apply in_or_app. left. exact Hin.
Qed.

(** Loading saved clip records allocates one new object per record, in
    order. *)
Lemma load_clips_saved (cs : list Clip.t) :
  forall h acc,
    Project.load_clips (map Clip.to_dict cs) h acc
    = inr (h ++ cs, acc ++ seq (length h) (length cs)).
Proof.
  induction cs as [|c cs IH]; intros h acc.
  - cbn. now rewrite !app_nil_r.
  - cbn [map Project.load_clips]. rewrite clip_round_trip. cbn [exc_bind alloc].
    rewrite IH, length_app, <- !app_assoc. cbn [length app seq].
    rewrite Nat.add_1_r. reflexivity.
Qed.

(** The objects allocated for [cs] hold [cs], whatever is allocated later. *)
Lemma clips_of_allocated (cs : list Clip.t) :
  forall h rest,
    clips_of (h ++ cs ++ rest) (seq (length h) (length cs)) = cs.
Proof.
  induction cs as [|c cs IH]; intros h rest; [reflexivity|].
  cbn [length seq]. unfold clips_of in *. cbn [map]. f_equal.
  - unfold deref. cbn [app]. apply nth_middle.
  - specialize (IH (h ++ [c]) rest).
    rewrite length_app, Nat.add_1_r, <- app_assoc in IH. exact IH.
Qed.

(** C1. Saving then loading gives back the project: for a project whose
    catalogue is keyed by the items' ids, [from_dict] of [to_dict] succeeds
    and the loaded project has the same media items (id, path, media type,
    thumbnail, in the same order), the same clips (media id, in, out, start)
    on each track in the same order, and the same two directories. *)
Theorem save_load_round_trip
    (default_workspace default_export : string) (h : Heap) (p : Project.t) :
  keyed_by_id (Project.media p) ->
  exists h' p',
    Project.from_dict default_workspace default_export h (Project.to_dict h p)
    = inr (h', p') /\
    Project.view_of h' p' = Project.view_of h p.
Proof.
  intros [Hid Hnd].
  set (vs := clips_of h (Project.video_clips p)).
  set (aus := clips_of h (Project.audio_clips p)).
  exists ((h ++ vs) ++ aus).
  exists (Project.mk (Project.media p)
            (seq (length h) (length vs))
            (seq (length (h ++ vs)) (length aus))
            (Project.workspace_dir p) (Project.export_dir p)).
  split.
  - unfold Project.from_dict, Project.to_dict, Project.get_str, Project.get_arr.
    cbn [json_get Dict.get String.eqb Ascii.eqb Bool.eqb exc_bind as_str as_arr
         Project.init Project.media Project.video_clips Project.audio_clips
         Project.workspace_dir Project.export_dir].
    rewrite (load_media_saved (Project.media p) Dict.empty Hid Hnd).
    cbn [exc_bind]. fold vs aus.
    rewrite (load_clips_saved vs h []). cbn [exc_bind fst snd].
    rewrite (load_clips_saved aus (h ++ vs) []). cbn [exc_bind fst snd app].
    reflexivity.
  - unfold Project.view_of. cbn [Project.media Project.video_clips
      Project.audio_clips Project.workspace_dir Project.export_dir].
    f_equal.
    + rewrite <- app_assoc. apply clips_of_allocated.
    + pose proof (clips_of_allocated aus (h ++ vs) []) as Ha.
      rewrite app_nil_r in Ha. exact Ha.
Qed.

(** [app_full]: three assets, one of each kind, and two clips per track. *)
Lemma save_load_round_trip_witness :
  length (Project.media (project app_full)) = 3%nat /\
  length (Project.video_clips (project app_full)) = 2%nat /\
  length (Project.audio_clips (project app_full)) = 2%nat /\
  exists h' p',
    Project.from_dict "/home/u/video_editor_workspace" "/home/u/Videos"
      (heap app_full) (Project.to_dict (heap app_full) (project app_full))
    = inr (h', p') /\
    Project.view_of h' p' = Project.view_of (heap app_full) (project app_full).
Proof.
  repeat split.
  apply (save_load_round_trip "/home/u/video_editor_workspace" "/home/u/Videos"
           (heap app_full) (project app_full)).
  split.
  - repeat constructor.
  - vm_compute. repeat constructor; simpl; intuition discriminate.
Defined.


Lemma dict_set_keys {V : Type} (d : Dict.t V) (k : string) (v : V) :
  Dict.keys (Dict.set d k v)
  = if Dict.mem d k then Dict.keys d else Dict.keys d ++ [k].
Proof.
  unfold Dict.mem. induction d as [|[k' v'] d IH]; [reflexivity|].
  cbn [Dict.set Dict.get]. destruct (String.eqb k' k); [reflexivity|].
  cbn. unfold Dict.keys in IH. rewrite IH.
  destruct (Dict.get d k); reflexivity.
Qed.

Lemma dict_mem_false {V : Type} (d : Dict.t V) (k : string) :
  Dict.mem d k = false -> ~ In k (Dict.keys d).
Proof.
  unfold Dict.mem. induction d as [|[k' v'] d IH]; cbn; [tauto|].
  destruct (String.eqb_spec k' k); [discriminate|].
  intros Hm [Heq | Hin]; [congruence | now apply IH].
Qed.

Lemma dict_set_forall {V : Type} (P : string * V -> Prop) (d : Dict.t V)
    (k : string) (v : V) :
  Forall P d -> P (k, v) -> Forall P (Dict.set d k v).
Proof.
  intros Hd Hkv. induction d as [|[k' v'] d IH]; cbn; [auto|].
  inversion Hd; subst.
  destruct (String.eqb_spec k' k); [subst; auto | auto].
Qed.

Lemma keyed_by_id_set (m : Dict.t MediaItem.t) (item : MediaItem.t) :
  keyed_by_id m -> keyed_by_id (Dict.set m (MediaItem.id item) item).
Proof.
  intros [Hid Hnd]. split.
  - now apply dict_set_forall.
  - rewrite dict_set_keys. destruct (Dict.mem m (MediaItem.id item)) eqn:Hm;
      [exact Hnd|].
    apply dict_mem_false in Hm.
    apply NoDup_rev in Hnd. rewrite <- (rev_involutive (_ ++ _)).
    apply NoDup_rev. rewrite rev_app_distr. cbn. constructor; [|exact Hnd].
    now rewrite <- in_rev.
Qed.


Lemma keyed_by_id_add_clip (h : Heap) (p : Project.t) (clip : ref) (track : string) :
  keyed_by_id (Project.media p) ->
  keyed_by_id (Project.media (Project.add_clip h p clip track)).
Proof.
  unfold Project.add_clip. destruct (String.eqb track "video"); auto.
Qed.

Lemma load_media_keyed (ms : list json) :
  forall acc m,
    keyed_by_id acc -> Project.load_media ms acc = inr m -> keyed_by_id m.
Proof.
  induction ms as [|j ms IH]; intros acc m Hacc Hload; cbn in Hload.
  - now injection Hload as <-.
  - destruct (MediaItem.from_dict j) as [e|item]; [discriminate|].
    cbn in Hload. eapply IH; [|exact Hload]. now apply keyed_by_id_set.
Qed.

Lemma keyed_by_id_from_dict (default_workspace default_export : string)
    (h h' : Heap) (data : json) (p' : Project.t) :
  Project.from_dict default_workspace default_export h data = inr (h', p') ->
  keyed_by_id (Project.media p').
Proof.
  unfold Project.from_dict. intros Hload.
  repeat match type of Hload with
         | exc_bind ?m _ = _ =>
             let E := fresh "E" in
             destruct m eqn:E; [discriminate|]; cbn [exc_bind] in Hload
         end.
  injection Hload as _ <-. cbn.
  eapply load_media_keyed; [|eassumption]. split; constructor.
Qed.

(** The project loaded from the saved [app_full] is keyed by id. *)
Lemma keyed_by_id_from_dict_witness :
  exists h' p',
    Project.from_dict "/home/u/video_editor_workspace" "/home/u/Videos"
      (heap app_full) (Project.to_dict (heap app_full) (project app_full))
    = inr (h', p') /\
    keyed_by_id (Project.media p').
Proof.
  destruct (Project.from_dict "/home/u/video_editor_workspace" "/home/u/Videos"
              (heap app_full)
              (Project.to_dict (heap app_full) (project app_full)))
    as [e | [h' p']] eqn:E.
  - vm_compute in E. discriminate.
  - exists h', p'. split; [reflexivity|].
    exact (keyed_by_id_from_dict _ _ _ _ _ _ E).
Defined.

(** * More of the program *)

(** ** An export that runs to its end *)

Lemma video_steps_no_raise (h : Heap) (media : Dict.t MediaItem.t)
    (temp_dir : string) (clips : list ref) (idx : nat) :
  track_resolves h media clips ->
  existsb raises (video_steps h media temp_dir idx clips) = false.
Proof.
  intros Hres.
  destruct (video_steps_resolved h media temp_dir clips Hres idx)
    as (trims & -> & _). apply existsb_raises_runs.
Qed.

Lemma audio_steps_no_raise (h : Heap) (media : Dict.t MediaItem.t)
    (temp_dir : string) (clips : list ref) (idx : nat) :
  track_resolves h media clips ->
  existsb raises (audio_steps h media temp_dir idx clips) = false.
Proof.
  intros Hres.
  destruct (audio_steps_resolved h media temp_dir clips Hres idx)
    as (trims & -> & _). apply existsb_raises_runs.
Qed.

Lemma upstream_steps_no_raise (h : Heap) (p : Project.t) :
  track_resolves h (Project.media p) (Project.video_clips p) ->
  track_resolves h (Project.media p) (Project.audio_clips p) ->
  existsb raises (upstream_steps h p) = false.
Proof.
  intros Hv Ha. unfold upstream_steps. cbv zeta.
  rewrite existsb_app. rewrite video_steps_no_raise by exact Hv.
  cbn [app existsb raises orb].
  destruct (Project.audio_clips p) as [|r rest]; [reflexivity|].
  now apply audio_steps_no_raise.
Qed.

(** With clips that all resolve and an engine that carries out every
    request, the export runs every step before the last request and then the
    last request. *)
Lemma export_runs_to_end (engine : Engine) (h : Heap) (p : Project.t)
    (output_path : string) (w : World) :
  engine_accepts_all engine ->
  track_resolves h (Project.media p) (Project.video_clips p) ->
  track_resolves h (Project.media p) (Project.audio_clips p) ->
  exists w',
    _export_with_ffmpeg engine h p output_path w = (inr tt, w') /\
    trace w' = trace w ++ flat_map event_of (upstream_steps h p)
                       ++ [Ffmpeg (final_cmd h p output_path) true].
Proof.
  intros Hok Hv Ha.
  destruct (exec_all_ok engine (plan h p output_path) Hok) with (w := w)
    as (w' & Hrun & Htr).
  { rewrite plan_upstream_final, existsb_app.
    rewrite upstream_steps_no_raise by assumption. reflexivity. }
  exists w'. split; [now rewrite export_is_exec|].
  rewrite Htr, plan_upstream_final, flat_map_app. reflexivity.
Qed.

(** ** The mix reads its inputs one place too early *)

Lemma final_cmd_with_audio (h : Heap) (p : Project.t) (output_path : string) :
  Project.audio_clips p <> [] ->
  final_cmd h p output_path
  = let temp_dir := path_join (Project.workspace_dir p) "export_tmp" in
    let na := length (Project.audio_clips p) in
    MixMux (path_join temp_dir "video_concat.mp4") (audio_files temp_dir 0 na)
      (adelays h 0 (Project.audio_clips p) ++ [AmixLongest (seq 0 na) na])
      output_path.
Proof.
  intros Hne. unfold final_cmd. cbv zeta.
  destruct (Project.audio_clips p); [contradiction | reflexivity].
Qed.

(** In the final command of an export with audio the concatenated video is
    input 0 and the trimmed file of the [k]-th audio clip is input [k + 1],
    but the graph's part for the [k]-th audio clip, which carries that clip's
    delay, reads [[k:a]].  So the delay of the first audio clip is put on the
    audio of the concatenated video, the delay of clip [k + 1] on the trimmed
    file of clip [k], and no part of the graph reads the last trimmed audio
    file. *)
Theorem mix_graph_inputs_shifted
    (engine : Engine) (h : Heap) (p : Project.t) (output_path : string)
    (w : World) :
  engine_accepts_all engine ->
  track_resolves h (Project.media p) (Project.video_clips p) ->
  track_resolves h (Project.media p) (Project.audio_clips p) ->
  Project.audio_clips p <> [] ->
  let temp_dir := path_join (Project.workspace_dir p) "export_tmp" in
  let na := length (Project.audio_clips p) in
  exists (done : list Event) (mix : Cmd) (w' : World),
    _export_with_ffmpeg engine h p output_path w = (inr tt, w') /\
    trace w' = trace w ++ done ++ [Ffmpeg mix true] /\
    nth_error (ffmpeg_inputs mix) 0 = Some (path_join temp_dir "video_concat.mp4") /\
    (forall k r,
        nth_error (Project.audio_clips p) k = Some r ->
        (* the trimmed file of clip k is input k + 1 ... *)
        nth_error (ffmpeg_inputs mix) (S k) = Some (audio_file temp_dir k) /\
        (* ... and the part carrying its delay reads input k *)
        nth_error (cmd_filter mix) k
        = Some (Adelay k [ py_int (Clip.start_time (deref h r) * 1000);
                           py_int (Clip.start_time (deref h r) * 1000) ] k)) /\
    nth_error (ffmpeg_inputs mix) na = Some (audio_file temp_dir (na - 1)) /\
    (forall part, In part (cmd_filter mix) -> part_input part <> Some na).
Proof.
  intros Hok Hv Ha Hne. cbv zeta.
  destruct (export_runs_to_end engine h p output_path w Hok Hv Ha)
    as (w' & Hrun & Htr).
  exists (flat_map event_of (upstream_steps h p)), (final_cmd h p output_path), w'.
  split; [exact Hrun|]. split; [exact Htr|].
  rewrite (final_cmd_with_audio h p output_path Hne).
  set (clips := Project.audio_clips p) in *.
  cbn [ffmpeg_inputs cmd_filter nth_error].
  split; [reflexivity|]. split; [|split].
  - intros k r Hk.
    assert (Hlt : (k < length clips)%nat) by (apply nth_error_Some; congruence).
    split.
    + unfold audio_files. now rewrite nth_error_map_seq.
    + rewrite nth_error_app1 by (now rewrite adelays_length).
      now rewrite (adelays_nth h clips 0 k r Hk).
  - assert (Hpos : (0 < length clips)%nat)
      by (destruct clips; [contradiction | cbn; lia]).
    destruct (length clips) as [|n] eqn:El; [lia|].
    cbn [nth_error]. unfold audio_files.
    rewrite nth_error_map_seq by lia. do 2 f_equal. lia.
  - intros part Hin. apply in_app_or in Hin as [Hin | [<- | []]].
    + destruct (adelays_inputs h clips 0 part Hin) as (k & -> & Hrange).
      intros Heq. injection Heq as ->. lia.
    + discriminate.
Qed.

(** The session [app_with_audio]: the delay 2500 of the second song clip is
    on input 1, which is the trimmed file of the first. *)
Lemma mix_graph_inputs_shifted_witness :
  exists (done : list Event) (mix : Cmd) (w' : World),
    _export_with_ffmpeg accept_all (heap app_with_audio) (project app_with_audio)
      "/home/u/Videos/out.mp4" empty_world = (inr tt, w') /\
    trace w' = done ++ [Ffmpeg mix true] /\
    nth_error (ffmpeg_inputs mix) 1
    = Some "/home/u/video_editor_workspace/export_tmp/a_000.mp3" /\
    nth_error (cmd_filter mix) 1 = Some (Adelay 1 [2500; 2500]%Z 1).
Proof.
  destruct (mix_graph_inputs_shifted accept_all (heap app_with_audio)
              (project app_with_audio) "/home/u/Videos/out.mp4" empty_world
              accept_all_accepts)
    as (done & mix & w' & Hrun & Htr & _ & Hk & _).
  - repeat constructor.
  - repeat constructor.
  - discriminate.
  - exists done, mix, w'. split; [exact Hrun|]. split; [exact Htr|].
    split.
    + exact (proj1 (Hk 0%nat 1%nat eq_refl)).
    + exact (proj2 (Hk 1%nat 2%nat eq_refl)).
Defined.

(** ** A clip whose media is gone *)

Lemma video_steps_app (h : Heap) (media : Dict.t MediaItem.t)
    (temp_dir : string) (pre post : list ref) :
  track_resolves h media pre ->
  forall idx,
    video_steps h media temp_dir idx (pre ++ post)
    = video_steps h media temp_dir idx pre
      ++ video_steps h media temp_dir (idx + length pre) post.
Proof.
  induction 1 as [|r pre Hr _ IH]; intros idx.
  - cbn. now rewrite Nat.add_0_r.
  - cbn [app video_steps length]. unfold Dict.mem, Dict.item in *.
    destruct (Dict.get media (Clip.media_id (deref h r))); [|discriminate].
    cbn [app]. rewrite IH. do 3 f_equal. lia.
Qed.

Lemma audio_steps_app (h : Heap) (media : Dict.t MediaItem.t)
    (temp_dir : string) (pre post : list ref) :
  track_resolves h media pre ->
  forall idx,
    audio_steps h media temp_dir idx (pre ++ post)
    = audio_steps h media temp_dir idx pre
      ++ audio_steps h media temp_dir (idx + length pre) post.
Proof.
  induction 1 as [|r pre Hr _ IH]; intros idx.
  - cbn. now rewrite Nat.add_0_r.
  - cbn [app audio_steps length]. unfold Dict.mem, Dict.item in *.
    destruct (Dict.get media (Clip.media_id (deref h r))); [|discriminate].
    cbn [app]. rewrite IH. do 3 f_equal. lia.
Qed.

(** Running requests that all succeed and then a failed lookup. *)
Lemma exec_runs_then_raises (engine : Engine) (cmds : list Cmd) (e : exn)
    (rest : list Step) (w : World) :
  engine_accepts_all engine ->
  exists w',
    exec engine (map DoRun cmds ++ DoRaise e :: rest) w = (inl e, w') /\
    trace w' = trace w ++ map (fun c => Ffmpeg c true) cmds.
Proof.
  intros Hok.
  destruct (exec_all_ok engine (map DoRun cmds) Hok (existsb_raises_runs cmds) w)
    as (w' & Hrun & Htr).
  exists w'. rewrite exec_app, Hrun. split; [reflexivity|].
  now rewrite Htr, flat_map_event_of_runs.
Qed.

(** Export of a project with a video clip whose media id is not in the
    catalogue: the clips before it are trimmed, then the lookup raises
    [KeyError] with the missing id; the list file is not written, nothing is
    concatenated or encoded, and [export_project] reports the error. *)
Theorem export_stops_at_missing_video_media
    (env : ProbeEnv) (engine : Engine) (h : Heap) (p : Project.t)
    (chosen : string) (w : World) (pre post : list ref) (r : ref) :
  engine_accepts_all engine ->
  fst (ffprobe_installed env) = inr true ->
  chosen <> "" ->
  Project.video_clips p = pre ++ r :: post ->
  track_resolves h (Project.media p) pre ->
  Dict.get (Project.media p) (Clip.media_id (deref h r)) = None ->
  exists (trims : list Cmd),
    let result := export_project env engine h p chosen w in
    fst result = CriticalExportError (KeyError (Clip.media_id (deref h r))) /\
    trace (snd result)
      = trace w ++ [FfprobeVersion] ++ map (fun c => Ffmpeg c true) trims /\
    Forall2 (trims_video h (Project.media p)) pre trims.
Proof.
  intros Hok Hon Hc Hv Hpre Hmiss.
  set (temp_dir := path_join (Project.workspace_dir p) "export_tmp").
  destruct (video_steps_resolved h (Project.media p) temp_dir pre Hpre 0%nat)
    as (trims & Hsteps & Hall & _).
  exists trims. cbv zeta.
  rewrite export_project_runs_export
    by (try assumption; rewrite Hv; now destruct pre).
  cbv zeta. rewrite export_is_exec. unfold plan. cbv zeta. fold temp_dir.
  rewrite Hv, video_steps_app by exact Hpre.
  rewrite Hsteps. cbn [video_steps]. unfold Dict.item. rewrite Hmiss.
  rewrite <- app_assoc. cbn [app].
  match goal with
  | |- context [exec engine (map DoRun trims ++ DoRaise ?e :: ?rest) ?w0] =>
      destruct (exec_runs_then_raises engine trims e rest w0 Hok)
        as (w' & Hrun & Htr)
  end.
  rewrite Hrun. cbn [fst snd].
  split; [reflexivity|]. split; [|exact Hall].
  rewrite Htr. cbn [trace]. now rewrite <- app_assoc.
Qed.

(** [app_two_clips] once [m1] has been removed from the library: the first
    clip already fails, no trim runs. *)
Lemma export_stops_at_missing_video_media_witness :
  fst (export_project probe3 accept_all (heap app_two_clips) project_without_m1
         "/home/u/Videos/out" empty_world)
  = CriticalExportError (KeyError "m1") /\
  trace (snd (export_project probe3 accept_all (heap app_two_clips)
                project_without_m1 "/home/u/Videos/out" empty_world))
  = [FfprobeVersion].
Proof.
  destruct (export_stops_at_missing_video_media probe3 accept_all
              (heap app_two_clips) project_without_m1 "/home/u/Videos/out"
              empty_world [] [1%nat] 0%nat accept_all_accepts eq_refl)
    as (trims & Hd & Ht & Hall).
  - discriminate.
  - reflexivity.
  - constructor.
  - reflexivity.
  - inversion Hall; subst. split; [exact Hd | exact Ht].
Defined.

(** ** Removing a media item *)

Lemma dict_get_del_other {V : Type} (d : Dict.t V) (k k0 : string) :
  k0 <> k -> Dict.get (Dict.del d k) k0 = Dict.get d k0.
Proof.
  intros Hne. induction d as [|[k' v'] d IH]; [reflexivity|].
  cbn [Dict.del Dict.get].
  destruct (String.eqb_spec k' k) as [-> | Hk].
  - destruct (String.eqb_spec k k0); [congruence | reflexivity].
  - cbn [Dict.get]. now rewrite IH.
Qed.

Lemma dict_get_not_key {V : Type} (d : Dict.t V) (k : string) :
  ~ In k (Dict.keys d) -> Dict.get d k = None.
Proof.
  induction d as [|[k' v'] d IH]; [reflexivity|]. cbn. intros Hn.
  destruct (String.eqb_spec k' k); [tauto | apply IH; tauto].
Qed.

Lemma dict_get_del_same {V : Type} (d : Dict.t V) (k : string) :
  NoDup (Dict.keys d) -> Dict.get (Dict.del d k) k = None.
Proof.
  induction d as [|[k' v'] d IH]; [reflexivity|]. cbn [Dict.keys map fst].
  intros Hnd. inversion Hnd as [|? ? Hnotin Hnd']; subst.
  cbn [Dict.del]. destruct (String.eqb_spec k' k) as [-> | Hk].
  - now apply dict_get_not_key.
  - cbn [Dict.get]. destruct (String.eqb_spec k' k); [contradiction|].
    now apply IH.
Qed.

Lemma dict_del_incl {V : Type} (d : Dict.t V) (k : string) :
  forall kv, In kv (Dict.del d k) -> In kv d.
Proof.
  induction d as [|[k' v'] d IH]; intros kv Hin; [contradiction|].
  cbn [Dict.del] in Hin. destruct (String.eqb k' k).
  - now right.
  - destruct Hin as [<- | Hin]; [now left | right; now apply IH].
Qed.

Lemma dict_del_keys_nodup {V : Type} (d : Dict.t V) (k : string) :
  NoDup (Dict.keys d) -> NoDup (Dict.keys (Dict.del d k)).
Proof.
  induction d as [|[k' v'] d IH]; [trivial|]. cbn [Dict.keys map fst].
  intros Hnd. inversion Hnd as [|? ? Hnotin Hnd']; subst.
  cbn [Dict.del]. destruct (String.eqb k' k); [exact Hnd'|].
  cbn [Dict.keys map fst]. constructor; [|now apply IH].
  intros Hin. apply Hnotin. apply in_map_iff in Hin as ([k1 v1] & Hk1 & Hin).
  cbn in Hk1. subst k1. apply dict_del_incl in Hin.
  apply in_map_iff. now exists (k', v1).
Qed.

Lemma keyed_by_id_del (m : Dict.t MediaItem.t) (k : string) :
  keyed_by_id m -> keyed_by_id (Dict.del m k).
Proof.
  intros [Hid Hnd]. split; [|now apply dict_del_keys_nodup].
  rewrite Forall_forall in *. intros kv Hin. apply Hid.
  now apply dict_del_incl in Hin.
Qed.

Lemma dict_del_length {V : Type} (d : Dict.t V) (k : string) :
  Dict.mem d k = true -> S (length (Dict.del d k)) = length d.
Proof.
  unfold Dict.mem. induction d as [|[k' v'] d IH]; [discriminate|].
  cbn [Dict.get Dict.del]. destruct (String.eqb k' k); [reflexivity|].
  intros Hm. cbn [length]. now rewrite IH.
Qed.

Lemma dict_del_keys_filter {V : Type} (d : Dict.t V) (k : string) :
  NoDup (Dict.keys d) ->
  Dict.keys (Dict.del d k)
  = filter (fun k' => negb (String.eqb k' k)) (Dict.keys d).
Proof.
  unfold Dict.keys.
  induction d as [|[k' v'] d IH]; [reflexivity|]. cbn [map fst].
  intros Hnd. inversion Hnd as [|? ? Hnotin Hnd']; subst.
  cbn [Dict.del filter]. destruct (String.eqb_spec k' k) as [-> | Hne]; cbn [negb].
  - clear IH Hnd Hnd'. induction d as [|[k1 v1] d IH]; [reflexivity|].
    cbn [map fst filter] in *.
    destruct (String.eqb_spec k1 k) as [-> | Hk1];
      [exfalso; apply Hnotin; now left|].
    cbn [negb]. f_equal. apply IH. intros Hin. apply Hnotin. now right.
  - cbn [map fst]. f_equal. now apply IH.
Qed.

(** Removing a media item deletes exactly that entry of the catalogue and
    nothing else: the other items, their order and both tracks stay, so
    every clip that refers to the removed item is still in its track and no
    longer resolves. *)
Theorem remove_media_leaves_clips
    (h : Heap) (p : Project.t) (media_id : string) :
  keyed_by_id (Project.media p) ->
  Dict.mem (Project.media p) media_id = true ->
  let p' := remove_media p media_id in
  Dict.get (Project.media p') media_id = None /\
  (forall k, k <> media_id ->
             Dict.get (Project.media p') k = Dict.get (Project.media p) k) /\
  S (length (Project.media p')) = length (Project.media p) /\
  keyed_by_id (Project.media p') /\
  Project.video_clips p' = Project.video_clips p /\
  Project.audio_clips p' = Project.audio_clips p /\
  (forall r, Clip.media_id (deref h r) = media_id ->
             (In r (Project.video_clips p) ->
              ~ track_resolves h (Project.media p') (Project.video_clips p')) /\
             (In r (Project.audio_clips p) ->
              ~ track_resolves h (Project.media p') (Project.audio_clips p'))) /\
  Dict.keys (Project.media p')
  = filter (fun k => negb (String.eqb k media_id)) (Dict.keys (Project.media p)).
Proof.
  intros Hk Hm. cbv zeta. unfold remove_media. rewrite Hm. cbn.
  assert (Hnone : Dict.get (Dict.del (Project.media p) media_id) media_id = None)
    by (apply dict_get_del_same, Hk).
  repeat match goal with |- _ /\ _ => split end; try reflexivity.
  - exact Hnone.
  - intros k Hne. now apply dict_get_del_other.
  - now apply dict_del_length.
  - now apply keyed_by_id_del.
  - intros r Hr. split; intros Hin Hres; unfold track_resolves in Hres;
      rewrite Forall_forall in Hres; specialize (Hres r Hin);
      unfold Dict.mem in Hres; rewrite Hr, Hnone in Hres; discriminate.
  - apply dict_del_keys_filter, Hk.
Qed.

(** Removing [m1] from [app_two_clips] leaves its two clips unresolved. *)
Lemma remove_media_leaves_clips_witness :
  Dict.get (Project.media project_without_m1) "m1" = None /\
  Project.video_clips project_without_m1 = [0; 1]%nat /\
  ~ track_resolves (heap app_two_clips) (Project.media project_without_m1)
      (Project.video_clips project_without_m1).
Proof.
  destruct (remove_media_leaves_clips (heap app_two_clips)
              (project app_two_clips) "m1")
    as (Hnone & _ & _ & _ & Hv & _ & Hdangling & _).
  - split; [repeat constructor|].
    vm_compute. repeat constructor; simpl; intuition discriminate.
  - reflexivity.
  - split; [exact Hnone|]. split; [exact Hv|].
    apply (proj1 (Hdangling 0%nat eq_refl)). now left.
Defined.

(** ** Strings *)

Lemma str_length_app (a b : string) :
  String.length (a ++ b) = (String.length a + String.length b)%nat.
Proof. induction a as [|c a IH]; cbn; [reflexivity | now rewrite IH]. Qed.

Lemma str_app_assoc (a b c : string) : ((a ++ b) ++ c = a ++ (b ++ c))%string.
Proof. induction a as [|x a IH]; cbn; [reflexivity | now rewrite IH]. Qed.

Lemma str_app_nil_r (a : string) : (a ++ "")%string = a.
Proof. induction a as [|x a IH]; cbn; [reflexivity | now rewrite IH]. Qed.

Lemma str_app_inv_head (a x y : string) : (a ++ x = a ++ y)%string -> x = y.
Proof.
  induction a as [|c a IH]; cbn; intros H; [exact H|].
  injection H as H. now apply IH.
Qed.

Lemma str_app_inv_tail (s : string) :
  forall x y : string, (x ++ s = y ++ s)%string -> x = y.
Proof.
  intros x. induction x as [|c x IH]; intros y H.
  - destruct y as [|d y]; [reflexivity|]. exfalso.
    apply (f_equal String.length) in H. cbn in H.
    rewrite str_length_app in H. lia.
  - destruct y as [|d y].
    + exfalso. apply (f_equal String.length) in H. cbn in H.
      rewrite str_length_app in H. lia.
    + cbn in H. injection H as -> H. f_equal. now apply IH.
Qed.

Lemma substring_all (s : string) : substring 0 (String.length s) s = s.
Proof. induction s as [|c s IH]; cbn; [reflexivity | now rewrite IH]. Qed.

Lemma substring_app_tail (a b : string) :
  substring (String.length a) (String.length b) (a ++ b) = b.
Proof.
  induction a as [|c a IH]; cbn; [apply substring_all | exact IH].
Qed.

Lemma ends_with_app (a b : string) : ends_with (a ++ b) b = true.
Proof.
  unfold ends_with. rewrite str_length_app.
  replace (String.length a + String.length b - String.length b)%nat
    with (String.length a) by lia.
  rewrite substring_app_tail, String.eqb_refl, andb_true_r.
  apply Nat.leb_le. lia.
Qed.

(** ** Where an export writes *)

Lemma exec_trace_from_steps (engine : Engine) (steps : list Step) :
  forall w,
  exists evs,
    trace (snd (exec engine steps w)) = trace w ++ evs /\
    Forall (fun ev => exists s, In s steps /\ event_from ev s) evs.
Proof.
  induction steps as [|s steps IH]; intros w.
  - exists []. cbn. now rewrite app_nil_r.
  - destruct s as [c | path lines | e]; cbn [exec].
    + unfold bind, subprocess_run_check.
      destruct (engine c (files w)) as [[|] fs'].
      * destruct (IH {| files := fs'; trace := trace w ++ [Ffmpeg c true] |})
          as (evs & Htr & Hall).
        exists (Ffmpeg c true :: evs). split.
        -- rewrite Htr. cbn [trace]. now rewrite <- app_assoc.
        -- constructor.
           ++ exists (DoRun c). split; [now left | reflexivity].
           ++ eapply Forall_impl; [|exact Hall].
              intros ev (s & Hin & Hev). exists s. split; [now right | exact Hev].
      * exists [Ffmpeg c false]. cbn. split; [reflexivity|].
        constructor; [|constructor].
        exists (DoRun c). split; [now left | reflexivity].
    + unfold bind, write_lines.
      destruct (IH {| files := fs_write (files w) path (TextLines lines);
                      trace := trace w ++ [WriteLines path lines] |})
        as (evs & Htr & Hall).
      exists (WriteLines path lines :: evs). split.
      * rewrite Htr. cbn [trace]. now rewrite <- app_assoc.
      * constructor.
        -- exists (DoWrite path lines). split; [now left | split; reflexivity].
        -- eapply Forall_impl; [|exact Hall].
           intros ev (s & Hin & Hev). exists s. split; [now right | exact Hev].
    + exists []. cbn. split; [now rewrite app_nil_r | constructor].
Qed.

Lemma export_output_path_mp4 (chosen : string) :
  ends_with (if ends_with chosen ".mp4" then chosen else (chosen ++ ".mp4")%string)
            ".mp4" = true.
Proof.
  destruct (ends_with chosen ".mp4") eqn:E; [exact E | apply ends_with_app].
Qed.

(** Whatever the user types in the file dialog and whatever the engine
    does, [export_project] only asks ffmpeg to write inside the project's
    [export_tmp] directory or to a file whose name ends in [.mp4], and the
    only text file it writes itself lies in [export_tmp]. *)
Theorem export_project_writes_tmp_or_mp4
    (env : ProbeEnv) (engine : Engine) (h : Heap) (p : Project.t)
    (chosen : string) (w : World) :
  exists evs,
    trace (snd (export_project env engine h p chosen w)) = trace w ++ evs /\
    (forall c ok, In (Ffmpeg c ok) evs ->
       prefix (export_tmp p) (cmd_out c) = true \/
       (is_final_mux c = true /\ ends_with (cmd_out c) ".mp4" = true)) /\
    (forall path lines, In (WriteLines path lines) evs ->
       prefix (export_tmp p) path = true).
Proof.
  unfold export_project, ffprobe_installed.
  destruct (ffprobe_version env) as [e|u]; cbn [negb];
    [ destruct e; cbn [negb]; exists [FfprobeVersion]; cbn;
      (split; [reflexivity|]); split; intros; intuition discriminate |].
  destruct (Project.video_clips p) as [|r rest] eqn:Ev;
    [ exists [FfprobeVersion]; cbn; split; [reflexivity|];
      split; intros; intuition discriminate |].
  destruct (String.eqb chosen "");
    [ exists [FfprobeVersion]; cbn; split; [reflexivity|];
      split; intros; intuition discriminate |].
  set (output_path := if ends_with chosen ".mp4" then chosen
                      else (chosen ++ ".mp4")%string).
  set (w0 := {| files := files w; trace := trace w ++ [FfprobeVersion] |}).
  rewrite export_is_exec.
  destruct (exec_trace_from_steps engine (plan h p output_path) w0)
    as (evs & Htr & Hall).
  exists (FfprobeVersion :: evs). split.
  { destruct (exec engine (plan h p output_path) w0) as [[e|[]] w'];
      cbn [snd] in *; rewrite Htr; cbn [trace w0]; now rewrite <- app_assoc. }
  rewrite Forall_forall in Hall.
  pose proof (upstream_steps_under h p) as Hunder. rewrite Forall_forall in Hunder.
  split.
  - intros c ok [Heq | Hin]; [discriminate|].
    destruct (Hall _ Hin) as (s & Hs & Hev).
    destruct s as [c' | |]; cbn in Hev; try contradiction. subst c'.
    rewrite plan_upstream_final in Hs. apply in_app_or in Hs as [Hs | [Hs | []]].
    + left. apply (Hunder _ Hs). reflexivity.
    + right. injection Hs as <-. split; [apply final_cmd_is_final|].
      unfold final_cmd. cbv zeta.
      destruct (Project.audio_clips p); cbn [cmd_out];
        apply export_output_path_mp4.
  - intros path lines [Heq | Hin]; [discriminate|].
    destruct (Hall _ Hin) as (s & Hs & Hev).
    destruct s as [| path' lines' |]; cbn in Hev; try contradiction.
    destruct Hev as [-> ->].
    rewrite plan_upstream_final in Hs. apply in_app_or in Hs as [Hs | [Hs | []]].
    + apply (Hunder _ Hs). reflexivity.
    + discriminate.
Qed.

(** ** The intermediate files of an export *)

Lemma to_uint_not_nil (n : nat) : Nat.to_uint n <> Decimal.Nil.
Proof.
  rewrite <- (DecimalNat.Unsigned.of_to n) at 1.
  rewrite DecimalNat.Unsigned.to_of. apply DecimalFacts.unorm_nonnil.
Qed.

Lemma str_nat_digits (n : nat) :
  str_nat n = NilEmpty.string_of_uint (Nat.to_uint n).
Proof.
  unfold str_nat, NilZero.string_of_uint.
  pose proof (to_uint_not_nil n) as Hn.
  destruct (Nat.to_uint n); [contradiction | reflexivity ..].
Qed.

Lemma parse_nat_str_nat (n : nat) : parse_nat (str_nat n) = Some n.
Proof.
  unfold parse_nat. rewrite str_nat_digits, NilEmpty.usu. cbn.
  now rewrite DecimalNat.Unsigned.of_to.
Qed.

Lemma parse_nat_zero (s : string) :
  parse_nat (String "0" s) = parse_nat s.
Proof.
  unfold parse_nat. cbn [NilEmpty.uint_of_string].
  destruct (NilEmpty.uint_of_string s) as [d|]; reflexivity.
Qed.

(** The index is read back from its three-digit form, for every index, also
    those of four and more digits. *)
Lemma parse_nat_format_03d (idx : nat) : parse_nat (format_03d idx) = Some idx.
Proof.
  unfold format_03d. cbv zeta.
  destruct (String.length (str_nat idx)) as [|[|[|n]]]; cbn [append];
    rewrite ?parse_nat_zero; apply parse_nat_str_nat.
Qed.

Lemma format_03d_inj (i j : nat) : format_03d i = format_03d j -> i = j.
Proof.
  intros H. apply (f_equal parse_nat) in H.
  rewrite !parse_nat_format_03d in H. now injection H.
Qed.

(** [os.path.join] with a fixed directory loses nothing of a relative name. *)
Lemma path_join_inj (d a b : string) :
  prefix "/" a = false -> prefix "/" b = false ->
  path_join d a = path_join d b -> a = b.
Proof.
  intros Ha Hb. unfold path_join. rewrite Ha, Hb.
  destruct (String.eqb d "" || ends_with d "/"); intros H.
  - now apply str_app_inv_head in H.
  - apply str_app_inv_head in H. now injection H.
Qed.

Lemma video_file_inj (d : string) (i j : nat) :
  video_file d i = video_file d j -> i = j.
Proof.
  unfold video_file. intros H. apply path_join_inj in H; try reflexivity.
  injection H as H. apply str_app_inv_tail in H. now apply format_03d_inj.
Qed.

Lemma audio_file_inj (d : string) (i j : nat) :
  audio_file d i = audio_file d j -> i = j.
Proof.
  unfold audio_file. intros H. apply path_join_inj in H; try reflexivity.
  injection H as H. apply str_app_inv_tail in H. now apply format_03d_inj.
Qed.

Lemma nodup_map_inj {A B : Type} (f : A -> B) (l : list A) :
  (forall x y, f x = f y -> x = y) -> NoDup l -> NoDup (map f l).
Proof.
  intros Hinj. induction 1 as [|x l Hx _ IH]; cbn; constructor; [|exact IH].
  intros Hin. apply in_map_iff in Hin as (y & Hy & Hin).
  apply Hinj in Hy. now subst.
Qed.

Lemma step_outputs_runs (cmds : list Cmd) :
  step_outputs (map DoRun cmds) = map cmd_out cmds.
Proof.
  induction cmds as [|c cmds IH]; [reflexivity|]. cbn. f_equal. exact IH.
Qed.

Lemma step_outputs_app (s1 s2 : list Step) :
  step_outputs (s1 ++ s2) = step_outputs s1 ++ step_outputs s2.
Proof. apply flat_map_app. Qed.

(** The steps before the last request write exactly the intermediate files. *)
Lemma upstream_outputs (h : Heap) (p : Project.t) :
  track_resolves h (Project.media p) (Project.video_clips p) ->
  track_resolves h (Project.media p) (Project.audio_clips p) ->
  Permutation (step_outputs (upstream_steps h p)) (export_tmp_files p).
Proof.
  intros Hv Ha. unfold upstream_steps, export_tmp_files, export_tmp. cbv zeta.
  set (d := path_join (Project.workspace_dir p) "export_tmp").
  destruct (video_steps_resolved h (Project.media p) d _ Hv 0%nat)
    as (vt & -> & _ & Hvo).
  destruct (audio_steps_resolved h (Project.media p) d _ Ha 0%nat)
    as (at_ & Has & _ & Hao).
  rewrite !step_outputs_app, step_outputs_runs, Hvo.
  apply Permutation_app_head.
  assert (Haudio : step_outputs
                     match Project.audio_clips p with
                     | [] => []
                     | _ :: _ => audio_steps h (Project.media p) d 0
                                   (Project.audio_clips p)
                     end
                   = audio_files d 0 (length (Project.audio_clips p))).
  { destruct (Project.audio_clips p) as [|a rest] eqn:E; [reflexivity|].
    now rewrite Has, step_outputs_runs, Hao. }
  rewrite Haudio. apply Permutation_app_comm.
Qed.

(** The intermediate files of one export have pairwise different names,
    however many clips the tracks hold, and when all clips resolve they are
    exactly the files the steps before the last request write: no trim
    writes over the output of another, over the list file or over the
    concatenated video. *)
Theorem export_tmp_files_distinct (h : Heap) (p : Project.t) :
  NoDup (export_tmp_files p) /\
  (track_resolves h (Project.media p) (Project.video_clips p) ->
   track_resolves h (Project.media p) (Project.audio_clips p) ->
   NoDup (step_outputs (upstream_steps h p))).
Proof.
  assert (Hnd : NoDup (export_tmp_files p)).
  { unfold export_tmp_files. generalize (export_tmp p). intros d.
    apply NoDup_app; [| apply NoDup_app |].
    - apply nodup_map_inj; [apply video_file_inj | apply seq_NoDup].
    - apply nodup_map_inj; [apply audio_file_inj | apply seq_NoDup].
    - constructor; [| constructor; [intros [] | constructor]].
      intros [H | []]. apply path_join_inj in H; [discriminate | reflexivity ..].
    - intros f Hin [H | [H | []]]; apply in_map_iff in Hin as (i & <- & _);
        unfold audio_file in H; apply path_join_inj in H;
        try reflexivity; discriminate.
    - intros f Hin Hin2. apply in_map_iff in Hin as (i & <- & _).
      unfold video_file in Hin2.
      apply in_app_or in Hin2 as [Hin2 | [H | [H | []]]].
      + apply in_map_iff in Hin2 as (j & H & _). unfold audio_file in H.
        apply path_join_inj in H; try reflexivity; discriminate.
      + apply path_join_inj in H; try reflexivity; discriminate.
      + apply path_join_inj in H; try reflexivity; discriminate. }
  split; [exact Hnd|]. intros Hv Ha.
  eapply Permutation_NoDup; [|exact Hnd].
  symmetry. now apply upstream_outputs.
Qed.

(** ** The probe cache *)

Lemma dict_get_set_other {V : Type} (d : Dict.t V) (k k0 : string) (v : V) :
  k <> k0 -> Dict.get (Dict.set d k v) k0 = Dict.get d k0.
Proof.
  intros Hne. induction d as [|[k' v'] d IH]; cbn [Dict.set Dict.get].
  - destruct (String.eqb_spec k k0); [contradiction | reflexivity].
  - destruct (String.eqb_spec k' k) as [-> | Hk]; cbn [Dict.get].
    + destruct (String.eqb_spec k k0); [contradiction | reflexivity].
    + now rewrite IH.
Qed.

(** A call of [get_media_duration] never changes a cached duration and never
    caches anything for a path other than the one it is asked about; what it
    returns for a cached path (with ffprobe present) is the cached value. *)
Theorem probe_cache_is_stable
    (env : ProbeEnv) (cache : Dict.t Q) (path other : string) (d : Q) :
  let result := get_media_duration env cache path in
  (Dict.get cache other = Some d ->
   Dict.get (cache_after result) other = Some d) /\
  (other <> path ->
   Dict.get (cache_after result) other = Dict.get cache other) /\
  (fst (ffprobe_installed env) = inr true -> Dict.get cache path = Some d ->
   probed result = inr d /\ cache_after result = cache).
Proof.
  cbv zeta. unfold get_media_duration, ffprobe_installed, cache_after, probed.
  cbn [fst].
  destruct (ffprobe_version env) as [e|u].
  - destruct e; cbn [negb fst snd];
      (split; [auto | split; [auto | intros; discriminate]]).
  - cbn [negb].
    destruct (Dict.get cache path) as [d0|] eqn:Hc; cbn [fst snd].
    + split; [|split].
      * intros Ho. exact Ho.
      * intros _. reflexivity.
      * intros _ Hd. injection Hd as ->. split; reflexivity.
    + split; [|split].
      * intros Ho. destruct (String.eqb_spec path other) as [-> | Hne];
          [congruence | now rewrite dict_get_set_other].
      * intros Hne. apply dict_get_set_other. congruence.
      * intros _ Hd. discriminate.
Qed.

(** ** The catalogue *)

(** [add_media] then a lookup by the item's id gives the item back; every
    other id is looked up as before; an id that was already there keeps its
    place in the catalogue and a new one goes last. *)
Theorem add_media_lookup (p : Project.t) (item : MediaItem.t) (other : string) :
  let p' := Project.add_media p item in
  Dict.get (Project.media p') (MediaItem.id item) = Some item /\
  (other <> MediaItem.id item ->
   Dict.get (Project.media p') other = Dict.get (Project.media p) other) /\
  Dict.keys (Project.media p')
  = (if Dict.mem (Project.media p) (MediaItem.id item)
     then Dict.keys (Project.media p)
     else Dict.keys (Project.media p) ++ [MediaItem.id item]) /\
  Project.video_clips p' = Project.video_clips p /\
  Project.audio_clips p' = Project.audio_clips p.
Proof.
  cbv zeta. unfold Project.add_media. cbn.
  repeat split.
  - apply dict_get_set_same.
  - intros Hne. apply dict_get_set_other. congruence.
  - apply dict_set_keys.
Qed.

(** ** The items of the timeline *)

(** [refresh] draws one item for each clip whose media item is in the
    catalogue, the video track first and each track in its order, at the
    place and with the width its clip gives it; a clip whose media item is
    gone gets no item. *)
Theorem refresh_draws_resolving_clips (app : App) :
  let h := heap app in
  let p := project app in
  graphics_to_clip (refresh app)
  = map (fun r => (drawn_rect (deref h r) "video", r))
        (filter (clip_resolves h p) (Project.video_clips p))
    ++ map (fun r => (drawn_rect (deref h r) "audio", r))
           (filter (clip_resolves h p) (Project.audio_clips p)) /\
  map snd (graphics_to_clip (refresh app))
  = filter (clip_resolves h p) (all_clips p) /\
  heap (refresh app) = h /\ project (refresh app) = p.
Proof.
  cbv zeta. unfold refresh, _draw_tracks. cbn [graphics_to_clip heap project].
  rewrite !draw_clips_spec. cbn [List.app]. split; [reflexivity|].
  split; [|split; reflexivity].
  unfold all_clips. rewrite map_app, !map_map, filter_app. cbn [snd].
  now rewrite !map_id.
Qed.

Lemma release_items_refs (items : list (Rect * ref)) :
  forall h, map snd (snd (release_items h items)) = map snd items.
Proof.
  induction items as [|item items IH]; intros h; [reflexivity|].
  cbn [release_items].
  pose proof (release_item_ref h item) as Hr.
  destruct (release_item h item) as [h1 item']. cbn [snd] in Hr.
  specialize (IH h1). destruct (release_items h1 items) as [h2 rest'].
  cbn [snd map] in *. now rewrite Hr, IH.
Qed.

Lemma nodup_filter {A : Type} (f : A -> bool) (l : list A) :
  NoDup l -> NoDup (filter f l).
Proof.
  induction 1 as [|x l Hx _ IH]; cbn; [constructor|].
  destruct (f x); [|exact IH]. constructor; [|exact IH].
  intros Hin. apply filter_In in Hin. tauto.
Qed.

Lemma add_clip_all_clips (h : Heap) (p : Project.t) (clip : ref) (track : string) :
  Permutation (all_clips (Project.add_clip h p clip track))
              (clip :: all_clips p).
Proof.
  unfold all_clips, Project.add_clip.
  destruct (String.eqb track "video"); cbn [Project.video_clips Project.audio_clips].
  - eapply perm_trans; [apply Permutation_app_tail, sort_by_key_perm|].
    rewrite <- app_assoc. cbn [app].
    apply Permutation_sym, Permutation_middle.
  - eapply perm_trans; [apply Permutation_app_head, sort_by_key_perm|].
    rewrite app_assoc. apply Permutation_sym, Permutation_cons_append.
Qed.

Lemma draw_tracks_refs (h : Heap) (p : Project.t) :
  map snd (_draw_tracks h p) = filter (clip_resolves h p) (all_clips p).
Proof.
  unfold _draw_tracks, all_clips. rewrite !draw_clips_spec. cbn [List.app].
  rewrite map_app, !map_map, filter_app. cbn [snd]. now rewrite !map_id.
Qed.

(** A refresh puts any timeline in shape whose tracks are. *)
Lemma session_ok_refresh (app : App) :
  NoDup (all_clips (project app)) ->
  Forall (fun r => (r < length (heap app))%nat) (all_clips (project app)) ->
  session_ok (refresh app).
Proof.
  intros Hnd Hlt. unfold session_ok, refresh.
  cbn [heap project graphics_to_clip]. rewrite draw_tracks_refs.
  split; [exact Hnd|]. split; [exact Hlt|].
  split; [now apply nodup_filter|].
  rewrite Forall_forall. intros it Hit. apply (in_map snd) in Hit.
  rewrite draw_tracks_refs in Hit. apply filter_In in Hit. tauto.
Qed.

Lemma get_media_duration_raises (env : ProbeEnv) (cache : Dict.t Q)
    (path : string) (e : exn) :
  probed (get_media_duration env cache path) = inl e ->
  fst (ffprobe_installed env) = inl e.
Proof.
  unfold get_media_duration, ffprobe_installed, probed. cbn [fst].
  destruct (ffprobe_version env) as [[]|u]; cbn [negb fst snd];
    try discriminate; try (intros [= <-]; reflexivity).
  destruct (Dict.get cache path); discriminate.
Qed.

(** The shape of a session is kept by every gesture on the timeline: a drop,
    the release of the mouse button and a refresh. A drop returns unless the
    check for ffprobe raises, and then that error leaves the handler. *)
Theorem session_ok_kept (env : ProbeEnv) (app : App) (data : string) (x y : Q) :
  session_ok app ->
  match fst (dropEvent env app data x y) with
  | inr app' => session_ok app'
  | inl e => fst (ffprobe_installed env) = inl e
  end /\
  session_ok (mouseReleaseEvent app) /\
  session_ok (refresh app).
Proof.
  intros (Hnd & Hlt & Hind & Hin). split; [|split].
  - (* dropEvent *)
    unfold dropEvent.
    destruct (String.eqb data ""); [now repeat split|].
    destruct (Dict.get (Project.media (project app)) data) as [m|];
      [|now repeat split].
    pose proof (get_media_duration_raises env (duration_cache app)
                  (MediaItem.path m)) as Hraise. unfold probed in Hraise.
    destruct (get_media_duration env (duration_cache app) (MediaItem.path m))
      as [[[e|duration] cache'] ev]; cbn [fst snd] in *;
      [now apply Hraise|].
    cbn [alloc fst]. set (c := Clip.mk data 0 duration _).
    set (track := if Qltb y audio_y then "video" else "audio").
    set (p' := Project.add_clip (heap app ++ [c]) (project app)
                 (length (heap app)) track).
    pose proof (add_clip_all_clips (heap app ++ [c]) (project app)
                  (length (heap app)) track) as Hperm. fold p' in Hperm.
    assert (Hfresh : ~ In (length (heap app)) (all_clips (project app))).
    { intros Hi. rewrite Forall_forall in Hlt. apply Hlt in Hi. lia. }
    unfold session_ok. cbn [heap project graphics_to_clip].
    split; [|split; [|split]].
    + eapply Permutation_NoDup; [apply Permutation_sym, Hperm|].
      now constructor.
    + eapply Permutation_Forall; [apply Permutation_sym, Hperm|].
      rewrite length_app. cbn. constructor; [lia|].
      eapply Forall_impl; [|exact Hlt]. cbn. intros; lia.
    + rewrite _draw_clip_spec, map_app.
      destruct (clip_resolves _ _ _); cbn [map snd]; [|now rewrite app_nil_r].
      apply NoDup_app; [exact Hind | repeat constructor; intros [] |].
      intros r Hr [<- | []]. apply Hfresh.
      rewrite Forall_forall in Hin. apply in_map_iff in Hr as (it & <- & Hit).
      now apply Hin.
    + rewrite _draw_clip_spec. apply Forall_app. split.
      * eapply Forall_impl; [|exact Hin]. cbn. intros it Hit.
        eapply Permutation_in; [apply Permutation_sym, Hperm|]. now right.
      * destruct (clip_resolves _ _ _); constructor; [|constructor].
        cbn [snd]. eapply Permutation_in; [apply Permutation_sym, Hperm|].
        now left.
  - (* mouseReleaseEvent *)
    unfold mouseReleaseEvent, session_ok.
    pose proof (release_items_length (graphics_to_clip app) (heap app)) as Hlen.
    pose proof (release_items_refs (graphics_to_clip app) (heap app)) as Hrefs.
    destruct (release_items (heap app) (graphics_to_clip app)) as [h' items'].
    cbn [fst snd heap project graphics_to_clip] in *.
    split; [exact Hnd|]. split; [now rewrite Hlen|].
    split; [now rewrite Hrefs|].
    rewrite Forall_forall in *. intros it Hit. apply (in_map snd) in Hit.
    rewrite Hrefs in Hit. apply in_map_iff in Hit as (it0 & <- & Hit0).
    now apply Hin.
  - (* refresh *)
    now apply session_ok_refresh.
Qed.

(** From the empty timeline of [app_start], two drops, a release of the
    mouse button and a refresh keep the shape. *)
Lemma session_ok_kept_witness :
  session_ok app_start /\
  session_ok app_two_clips /\
  session_ok (refresh (mouseReleaseEvent app_two_clips)).
Proof.
  assert (H0 : session_ok app_start) by (repeat split; constructor).
  pose proof (proj1 (session_ok_kept probe3 app_start "m1" 100 10 H0)
              : session_ok (dropped probe3 app_start "m1" 100 10)) as H1.
  pose proof (proj1 (session_ok_kept probe3 _ "m1" 300 10 H1)
              : session_ok app_two_clips) as H2.
  pose proof (proj1 (proj2 (session_ok_kept probe3 _ "" 0 0 H2))) as H3.
  pose proof (proj2 (proj2 (session_ok_kept probe3 _ "" 0 0 H3))) as H4.
  split; [exact H0|]. split; [exact H2 | exact H4].
Defined.

(** ** The preview *)

Lemma play_next_from_rest (h : Heap) (p : Project.t) (rest : list ref) :
  forall (pre : list ref) (st : Player) (fuel : nat),
    _playlist st = pre ++ rest ->
    (_current_index st + 1)%Z = Z.of_nat (length pre) ->
    (length rest < fuel)%nat ->
    play_next_from fuel h p st
    = Some (if existsb (clip_resolves h p) rest
            then inl (NameNotDefined "QUrl")
            else inr (stop st)).
Proof.
  induction rest as [|c rest IH]; intros pre st fuel Hpl Hidx Hfuel;
    (destruct fuel as [|fuel]; [cbn in Hfuel; lia|]);
    cbn [play_next_from]; cbv zeta; rewrite Hidx, Hpl.
  - rewrite app_nil_r, Z.ltb_irrefl. unfold stop. cbn.
    now rewrite Hpl, app_nil_r.
  - replace (Z.of_nat (length pre) <? Z.of_nat (length (pre ++ c :: rest)))%Z
      with true
      by (symmetry; apply Z.ltb_lt; rewrite length_app; cbn [length]; lia).
    rewrite Nat2Z.id, app_nth2, Nat.sub_diag by lia. cbn [nth existsb].
    unfold clip_resolves at 1. unfold Dict.mem.
    destruct (Dict.get (Project.media p) (Clip.media_id (deref h c)));
      [reflexivity|].
    cbn [orb]. rewrite (IH (pre ++ [c])).
    + unfold stop. cbn [_playlist _playing]. now rewrite Hpl.
    + cbn. now rewrite <- app_assoc.
    + cbn [_current_index]. rewrite length_app. cbn [length]. lia.
    + cbn [length] in Hfuel. lia.
Qed.

Lemma sort_by_key_of_sorted {A : Type} (key : A -> Q) (l : list A) :
  Sorted Qle (map key l) -> sort_by_key key l = l.
Proof.
  intros Hs. symmetry. apply (stable_sorted_unique key).
  - exact Hs.
  - apply sort_by_key_sorted.
  - intros k. now rewrite sort_by_key_stable.
Qed.

Lemma existsb_perm {A : Type} (f : A -> bool) (l l' : list A) :
  Permutation l l' -> existsb f l = existsb f l'.
Proof.
  induction 1 as [|x l l' _ IH|x y l|l l' l'' _ IH1 _ IH2]; cbn.
  - reflexivity.
  - now rewrite IH.
  - now destruct (f x), (f y).
  - now rewrite IH1.
Qed.

(** The preview never plays a clip. [build_playlist] takes a copy of the
    video track sorted by start time (equal to the track exactly when the
    track is sorted), and [play_next] passes over the clips whose media item
    is gone; at the first clip whose media item is in the catalogue it
    raises [NameError] for [QUrl], and with no such clip it stops with the
    index back at [-1] and [_playing] off. *)
Theorem preview_never_plays (h : Heap) (p : Project.t) (st : Player) :
  let st0 := build_playlist h p st in
  play_next h p st0
  = Some (if existsb (clip_resolves h p) (Project.video_clips p)
          then inl (NameNotDefined "QUrl")
          else inr {| _playlist := _playlist st0;
                      _current_index := (-1)%Z; _playing := false |}) /\
  Permutation (_playlist st0) (Project.video_clips p) /\
  track_sorted h (_playlist st0) /\
  (track_sorted h (Project.video_clips p)
   <-> _playlist st0 = Project.video_clips p).
Proof.
  cbv zeta. split; [|split; [|split]].
  - unfold play_next.
    rewrite (play_next_from_rest h p (_playlist (build_playlist h p st)) []);
      [|reflexivity|reflexivity|lia].
    cbn [build_playlist _playlist].
    now rewrite (existsb_perm _ _ _ (sort_by_key_perm _ (Project.video_clips p))).
  - apply sort_by_key_perm.
  - apply sort_by_key_sorted.
  - cbn [build_playlist _playlist]. split.
    + apply sort_by_key_of_sorted.
    + intros <-. apply sort_by_key_sorted.
Qed.

(** ** The window *)















(** ** The position slider *)

Lemma py_int_bounds (q : Q) (n : Z) :
  0 <= q -> q <= inject_Z n -> (0 <= py_int q <= n)%Z.
Proof.
  destruct q as [a b]. unfold Qle, py_int. cbn. intros H0 Hn.
  rewrite Z.mul_1_r in *.
  assert (Ha : (0 <= a)%Z) by lia.
  rewrite Z.quot_div_nonneg by lia. split.
  - apply Z.div_pos; lia.
  - apply Z.div_le_upper_bound; lia.
Qed.

(** The slider and the player stay in range: with the position between 0
    and the duration, [update_position] leaves the slider between 0 and
    1000, the range [__init__] and [update_duration] give it, and for a
    slider value between 0 and 1000 [seek] asks for a position between 0 and
    the duration. With no duration yet neither does anything. *)
Theorem slider_and_seek_in_range (duration position slider value : Z) :
  (0 <= position <= duration)%Z ->
  (0 <= slider <= 1000)%Z ->
  (0 <= value <= 1000)%Z ->
  (0 <= update_position duration position slider <= 1000)%Z /\
  match seek duration value with
  | Some target => (0 < duration /\ 0 <= target <= duration)%Z
  | None => (duration <= 0)%Z /\ update_position duration position slider = slider
  end.
Proof.
  intros Hp Hs Hv. unfold update_position, seek.
  destruct (Z.gtb_spec duration 0) as [Hd | Hd]; [|split; [exact Hs | split; [lia | reflexivity]]].
  assert (Hdq : 0 < inject_Z duration) by (unfold Qlt; cbn; lia).
  assert (Hdn : ~ inject_Z duration == 0).
  { intros E. rewrite E in Hdq. discriminate. }
  split; [|split; [lia|]].
  - apply py_int_bounds.
    + apply Qmult_le_0_compat; [|discriminate].
      apply Qle_shift_div_l; [exact Hdq|]. rewrite Qmult_0_l.
      unfold Qle; cbn; lia.
    + setoid_replace (inject_Z 1000) with (1 * 1000) by reflexivity.
      apply Qmult_le_compat_r; [|discriminate].
      apply Qle_shift_div_r; [exact Hdq|]. rewrite Qmult_1_l.
      unfold Qle; cbn; lia.
  - apply py_int_bounds.
    + apply Qmult_le_0_compat; [|now apply Qlt_le_weak].
      apply Qle_shift_div_l; [reflexivity|]. rewrite Qmult_0_l.
      unfold Qle; cbn; lia.
    + setoid_replace (inject_Z duration) with (1 * inject_Z duration) at 2
        by (now rewrite Qmult_1_l).
      apply Qmult_le_compat_r; [|now apply Qlt_le_weak].
      apply Qle_shift_div_r; [reflexivity|]. rewrite Qmult_1_l.
      unfold Qle; cbn; lia.
Qed.

(** A clip of four seconds, one second in, and the slider at a quarter. *)
Lemma slider_and_seek_in_range_witness :
  (0 <= update_position 4000 1000 0 <= 1000)%Z /\
  match seek 4000 250 with
  | Some target => (0 < 4000 /\ 0 <= target <= 4000)%Z
  | None => (4000 <= 0)%Z /\ update_position 4000 1000 0 = 0%Z
  end.
Proof.
  apply (slider_and_seek_in_range 4000 1000 0 250); lia.
Defined.
